(** * A Monte Carlo tree search chess engine (engine.py), embedded and verified

    The development follows engine.py: the [Node] class, [rollout_policy],
    [UCT], the opening table with [get_opening_move], the move choice of
    [play_game], and the second ("quantum enhanced") variant of the engine
    with [grover_search] and [quantum_selection].

    Python objects live in a store: tree nodes in an arena of [Node] records
    addressed by index, boards in a heap of board values addressed by
    location.  Exceptions are results [Err e]; the module [random] is a tape
    of natural numbers read from left to right. *)

From Stdlib Require Import QArith Lia Lqa Ascii String.
From stdpp Require Import base list strings gmap.

Local Open Scope string_scope.
Local Open Scope list_scope.

(** ** Python preliminaries *)

Module Py.

(** The exceptions that the embedded code can raise.  [BadRef] and
    [OutOfFuel] belong to the model: an arena index that names no node, and a
    loop that was cut after the given number of rounds. *)
Inductive exn : Set :=
  | ZeroDivisionError
  | ValueError
  | IndexError
  | AttributeError
  | TypeError
  | BadRef
  | OutOfFuel.

Inductive res (A : Type) : Type :=
  | Ok (a : A)
  | Err (e : exn).
Global Arguments Ok {A} a.
Global Arguments Err {A} e.

Definition res_bind {A B} (r : res A) (k : A → res B) : res B :=
  match r with Ok a => k a | Err e => Err e end.

(** [[k(x) for x in l]] where [k] may raise: left to right, first error wins. *)
Fixpoint map_res {A B} (k : A → res B) (l : list A) : res (list B) :=
  match l with
  | [] => Ok []
  | x :: l' =>
      res_bind (k x) (λ y, res_bind (map_res k l') (λ ys, Ok (y :: ys)))
  end.

(** [l[-1]] *)
Definition last_item {A} (l : list A) : res A :=
  match last l with Some x => Ok x | None => Err IndexError end.

(** [sorted(l, key=...)], on the list of pairs (key, item): a stable sort
    that only uses [<] on keys.  An item is put in front of the first item
    with a strictly greater key, so equal keys keep their order. *)
Section sorted.
Context {K A : Type} (ltb : K → K → bool).

Fixpoint insert_sorted (x : K * A) (l : list (K * A)) : list (K * A) :=
  match l with
  | [] => [x]
  | y :: l' =>
      if ltb x.1 y.1 then x :: y :: l' else y :: insert_sorted x l'
  end.

Definition sorted (l : list (K * A)) : list (K * A) :=
  foldl (λ acc x, insert_sorted x acc) [] l.

(** [sorted(l, key=key)[-1]] *)
Definition sorted_last (key : A → res K) (l : list A) : res A :=
  res_bind (map_res (λ x, res_bind (key x) (λ k, Ok (k, x))) l)
    (λ kl, res_bind (last_item (sorted kl)) (λ kx, Ok kx.2)).
End sorted.

(** [list.remove(x)]: drops the first occurrence, [ValueError] when absent. *)
Fixpoint list_remove `{EqDecision A} (x : A) (l : list A) : res (list A) :=
  match l with
  | [] => Err ValueError
  | y :: l' =>
      if decide (x = y) then Ok l'
      else res_bind (list_remove x l') (λ r, Ok (y :: r))
  end.

(** A [dict] with insertion order: [d[k] = v] overwrites in place or appends. *)
Fixpoint dict_set `{EqDecision K} {V} (k : K) (v : V) (d : list (K * V))
  : list (K * V) :=
  match d with
  | [] => [(k, v)]
  | (k', v') :: d' =>
      if decide (k = k') then (k, v) :: d' else (k', v') :: dict_set k v d'
  end.

Fixpoint dict_get `{EqDecision K} {V} (k : K) (d : list (K * V)) : option V :=
  match d with
  | [] => None
  | (k', v') :: d' => if decide (k = k') then Some v' else dict_get k d'
  end.

End Py.
Import Py.

(** ** The chess library, as far as engine.py uses it *)

Module chess.

Definition Square := nat.

Inductive PieceType : Set := PAWN | KNIGHT | BISHOP | ROOK | QUEEN | KING.

Global Instance PieceType_eq_dec : EqDecision PieceType.
Proof. solve_decision. Defined.

(** [chess.Move]: origin, destination, promotion piece and dropped piece. *)
Record Move : Set := mkMove {
  from_square : Square;
  to_square : Square;
  promotion : option PieceType;
  drop : option PieceType;
}.

Global Instance Move_eq_dec : EqDecision Move.
Proof. solve_decision. Defined.

(** [chess.A1 = 0], ..., [chess.H8 = 63], those that are used here *)
Definition E2 : Square := 12%nat.
Definition C3 : Square := 18%nat.
Definition F3 : Square := 21%nat.
Definition G3 : Square := 22%nat.
Definition E4 : Square := 28%nat.
Definition E5 : Square := 36%nat.
Definition C6 : Square := 42%nat.
Definition F6 : Square := 45%nat.
Definition G6 : Square := 46%nat.
Definition E7 : Square := 52%nat.

Definition FILE_NAMES : list ascii :=
  ["a"; "b"; "c"; "d"; "e"; "f"; "g"; "h"]%char.
Definition RANK_NAMES : list ascii :=
  ["1"; "2"; "3"; "4"; "5"; "6"; "7"; "8"]%char.

(** [SQUARE_NAMES = [f + r for r in RANK_NAMES for f in FILE_NAMES]] *)
Definition SQUARE_NAMES : list string :=
  r ← RANK_NAMES; f ← FILE_NAMES; [String f (String r EmptyString)].

Definition piece_symbol (p : PieceType) : string :=
  match p with
  | PAWN => "p" | KNIGHT => "n" | BISHOP => "b"
  | ROOK => "r" | QUEEN => "q" | KING => "k"
  end.

Definition upper_symbol (p : PieceType) : string :=
  match p with
  | PAWN => "P" | KNIGHT => "N" | BISHOP => "B"
  | ROOK => "R" | QUEEN => "Q" | KING => "K"
  end.

(** [SQUARE_NAMES[sq]] *)
Definition square_name (sq : Square) : res string :=
  match SQUARE_NAMES !! sq with Some s => Ok s | None => Err IndexError end.

(** [Move.__bool__] *)
Definition move_bool (m : Move) : bool :=
  negb (Nat.eqb (from_square m) 0) || negb (Nat.eqb (to_square m) 0)
  || bool_decide (is_Some (promotion m)) || bool_decide (is_Some (drop m)).

(** [Move.uci]; [str(move)] is [move.uci()]. *)
Definition uci (m : Move) : res string :=
  match drop m with
  | Some d =>
      res_bind (square_name (to_square m)) (λ t, Ok (upper_symbol d +:+ "@" +:+ t))
  | None =>
      match promotion m with
      | Some p =>
          res_bind (square_name (from_square m)) (λ f,
          res_bind (square_name (to_square m)) (λ t,
          Ok (f +:+ t +:+ piece_symbol p)))
      | None =>
          if move_bool m then
            res_bind (square_name (from_square m)) (λ f,
            res_bind (square_name (to_square m)) (λ t, Ok (f +:+ t)))
          else Ok "0000"
      end
  end.

(** [SQUARE_NAMES.index(s)] *)
Definition square_index (s : string) : res Square :=
  match list_find (λ n, n = s) SQUARE_NAMES with
  | Some (i, _) => Ok i
  | None => Err ValueError
  end.

(** [PIECE_SYMBOLS.index(s)] *)
Definition piece_index (s : string) : res PieceType :=
  match list_find (λ p, piece_symbol p = s) [PAWN; KNIGHT; BISHOP; ROOK; QUEEN; KING] with
  | Some (_, p) => Ok p
  | None => Err ValueError
  end.

Definition lower_ascii (c : ascii) : ascii :=
  let n := nat_of_ascii c in
  if (Nat.leb 65 n && Nat.leb n 90)%bool then ascii_of_nat (n + 32) else c.

(** [str.lower] *)
Fixpoint lower (s : string) : string :=
  match s with
  | EmptyString => EmptyString
  | String c s' => String (lower_ascii c) (lower s')
  end.

(** [Move.from_uci]; [InvalidMoveError] is a [ValueError]. *)
Definition from_uci (s : string) : res Move :=
  if String.eqb s "0000" then Ok (mkMove 0 0 None None)
  else if (Nat.eqb (String.length s) 4
           && bool_decide (String.get 1 s = Some "@"%char))%bool then
    res_bind (piece_index (lower (substring 0 1 s))) (λ d,
    res_bind (square_index (substring 2 2 s)) (λ sq,
    Ok (mkMove sq sq None (Some d))))
  else if (Nat.leb 4 (String.length s) && Nat.leb (String.length s) 5)%bool then
    res_bind (square_index (substring 0 2 s)) (λ f,
    res_bind (square_index (substring 2 2 s)) (λ t,
    res_bind (if Nat.eqb (String.length s) 5
              then res_bind (piece_index (substring 4 1 s)) (λ p, Ok (Some p))
              else Ok None) (λ p,
    if Nat.eqb f t then Err ValueError else Ok (mkMove f t p None))))
  else Err ValueError.

End chess.
Import chess.

(** The methods and properties of [chess.Board] that the engine calls.  A
    [Board] is the value of a board object; [push b m] is the value after
    [b.push(m)].  [turn] is [True] for White. *)
Class BoardApi := {
  Board : Type;
  legal_moves : Board → list Move;
  turn : Board → bool;
  push : Board → Move → Board;
  is_game_over : Board → bool;
  result : Board → string;
  move_stack : Board → list Move;
  is_capture : Board → Move → bool;
  is_check : Board → bool;
  gives_check : Board → Move → bool;
  is_into_check : Board → Move → bool;
  is_pinned : Board → bool → Square → bool;
  is_castling : Board → Move → bool;
}.

(** Python floats that are not NaN, with the operations of [math] and the
    arithmetic that [UCTSelectChild] uses.  [of_Q] converts an [int] or a
    float that is a multiple of one half. *)
Class PyFloat := {
  float : Type;
  of_Q : Q → float;
  fadd : float → float → float;
  fmul : float → float → float;
  fdiv : float → float → float;
  flog : float → float;
  fsqrt : float → float;
  fleb : float → float → bool;
}.

(** [x < y] on floats *)
Definition fltb `{PyFloat} (x y : float) : bool := negb (fleb y x).

(** ** The search tree *)

(** An object of class [Node]; [parentNode] and [childNodes] hold arena
    indices. *)
Record Node : Type := mkNode {
  move : option Move;
  parentNode : option nat;
  childNodes : list nat;
  wins : Q;
  visits : Z;
  untriedMoves : list Move;
  playerJustMoved : bool;
}.

(** The store: the arena of nodes, the heap of boards, and the tape that
    [random] reads (an exhausted tape goes on with zeros). *)
Record World `{BoardApi} : Type := mkWorld {
  nodes : list Node;
  boards : list Board;
  rng : list nat;
}.
Global Arguments mkWorld {_} _ _ _.

(** Computations on the store that may raise. *)
Definition M `{BoardApi} (A : Type) : Type := World → res (A * World).

Definition ret `{BoardApi} {A} (a : A) : M A := λ w, Ok (a, w).
Definition raise `{BoardApi} {A} (e : exn) : M A := λ _, Err e.
Definition bind `{BoardApi} {A B} (m : M A) (k : A → M B) : M B :=
  λ w, match m w with Ok (a, w') => k a w' | Err e => Err e end.
Definition lift `{BoardApi} {A} (r : res A) : M A :=
  λ w, match r with Ok a => Ok (a, w) | Err e => Err e end.

Notation "x <- m ;; k" := (bind m (λ x, k))
  (at level 100, m at next level, right associativity).
Notation "m ;; k" := (bind m (λ _, k))
  (at level 100, right associativity).

Section Store.
Context `{BoardApi}.

Definition get_node (id : nat) : M Node :=
  λ w, match nodes w !! id with Some n => Ok (n, w) | None => Err BadRef end.

Definition set_node (id : nat) (n : Node) : M unit :=
  λ w, match nodes w !! id with
       | Some _ => Ok (tt, mkWorld (<[id := n]> (nodes w)) (boards w) (rng w))
       | None => Err BadRef
       end.

Definition new_node (n : Node) : M nat :=
  λ w, Ok (length (nodes w), mkWorld (nodes w ++ [n]) (boards w) (rng w)).

Definition get_board (b : nat) : M Board :=
  λ w, match boards w !! b with Some v => Ok (v, w) | None => Err BadRef end.

(** [board.copy()]: a new board object with the same value *)
Definition board_copy (b : nat) : M nat :=
  λ w, match boards w !! b with
       | Some v => Ok (length (boards w), mkWorld (nodes w) (boards w ++ [v]) (rng w))
       | None => Err BadRef
       end.

(** [board.push(m)]: the board object changes in place *)
Definition board_push (b : nat) (m : Move) : M unit :=
  λ w, match boards w !! b with
       | Some v => Ok (tt, mkWorld (nodes w) (<[b := push v m]> (boards w)) (rng w))
       | None => Err BadRef
       end.

(** [random.choice(l)]: [IndexError] on an empty list *)
Definition random_choice {A} (l : list A) : M A :=
  λ w, match l !! (hd 0%nat (rng w) mod length l)%nat with
       | Some x => Ok (x, mkWorld (nodes w) (boards w) (tl (rng w)))
       | None => Err IndexError
       end.

Definition Qsum (l : list Q) : Q := foldr Qplus 0%Q l.

(** [random.choices(population, weights)[0]]: the weights must be as many
    as the items and have a positive total; which item comes out is left
    to the tape. *)
Definition random_choices {A} (population : list A) (weights : list Q) : M A :=
  if negb (Nat.eqb (length population) (length weights)) then raise ValueError
  else if Qle_bool (Qsum weights) 0 then raise ValueError
  else random_choice population.
End Store.

(** ** class Node *)

Section NodeClass.
Context `{BoardApi} `{PyFloat}.

(** [Node(move, parent, state)] *)
Definition Node_init (m : option Move) (parent : option nat) (state : nat) : M nat :=
  b <- get_board state ;;
  new_node (mkNode m parent [] 0%Q 0%Z (legal_moves b) (turn b)).

(** The sort key of [UCTSelectChild]:
    [c.wins/c.visits + sqrt(2*log(self.visits)/c.visits)] *)
Definition uct_key (self_visits : Z) (c : Node) : res float :=
  if (visits c =? 0)%Z then Err ZeroDivisionError
  else
    let exploit := fdiv (of_Q (wins c)) (of_Q (inject_Z (visits c))) in
    if (self_visits <=? 0)%Z then Err ValueError
    else
      let q := fdiv (fmul (of_Q 2) (flog (of_Q (inject_Z self_visits))))
                    (of_Q (inject_Z (visits c))) in
      if fltb q (of_Q 0) then Err ValueError
      else Ok (fadd exploit (fsqrt q)).

(** The key of the node that an index names. *)
Definition key_of (ns : list Node) (key : Node → res float) (c : nat) : res float :=
  match ns !! c with Some cn => key cn | None => Err BadRef end.

Definition UCTSelectChild (self : nat) : M nat :=
  n <- get_node self ;;
  λ w, lift (sorted_last fltb (key_of (nodes w) (uct_key (visits n)))
               (childNodes n)) w.

Definition AddChild (self : nat) (m : Move) (s : nat) : M nat :=
  n <- Node_init (Some m) (Some self) s ;;
  me <- get_node self ;;
  untried <- lift (list_remove m (untriedMoves me)) ;;
  set_node self (mkNode (move me) (parentNode me) (childNodes me) (wins me)
                   (visits me) untried (playerJustMoved me)) ;;
  me <- get_node self ;;
  set_node self (mkNode (move me) (parentNode me) (childNodes me ++ [n]) (wins me)
                   (visits me) (untriedMoves me) (playerJustMoved me)) ;;
  ret n.

(** The body of [Update] on the fields of one node. *)
Definition Update_node (result : string) (n : Node) : Node :=
  let v := (visits n + 1)%Z in
  let w :=
    if String.eqb result "1-0" then (wins n + 1)%Q
    else if String.eqb result "0-1" then (wins n - 1)%Q
    else if String.eqb result "1/2-1/2" then (wins n + (1 # 2))%Q
    else wins n in
  mkNode (move n) (parentNode n) (childNodes n) w v (untriedMoves n)
    (playerJustMoved n).

Definition Update (self : nat) (result : string) : M unit :=
  n <- get_node self ;;
  set_node self (Update_node result n).
End NodeClass.

(** ** rollout_policy *)

(** What [rollout_policy] hands to [random]: [random.choice(moves)] or
    [random.choices(moves, probabilities)].  A probability [p / total_weight]
    is kept as the exact quotient of the two integers. *)
Inductive Sampler : Type :=
  | UniformChoice (moves : list Move)
  | WeightedChoices (moves : list Move) (probabilities : list Q).

Section Rollout.
Context `{BoardApi}.

(** [weights[k] += delta] for a key that is in the dictionary *)
Definition dict_add (k : Move) (delta : Z) (d : list (Move * Z)) : list (Move * Z) :=
  match dict_get k d with
  | Some v => dict_set k (v + delta)%Z d
  | None => d
  end.

Definition when (c : bool) (delta : Z) : Z := if c then delta else 0%Z.

(** All the [weights[move] += ...] of one round of the loop, added up.
    [dev] is the list [piece_development_squares]. *)
Definition move_bonus (dev : list Square) (b : Board) (m : Move) : Z :=
  (when (is_capture b m) 10
   + when (is_check b) 5
   + when (gives_check b m) 5
   + when (is_into_check b m) (-20)
   + when (is_pinned b (turn b) (from_square m)) (-5)
   + when (is_castling b m) 5
   + when (bool_decide (to_square m ∈ dev)) 3)%Z.

Definition rollout_weights (dev : list Square) (b : Board) : list (Move * Z) :=
  let weights := foldl (λ d m, dict_set m 1%Z d) [] (legal_moves b) in
  foldl (λ d m, dict_add m (move_bonus dev b m) d) weights (legal_moves b).

Definition Zsum (l : list Z) : Z := foldr Z.add 0%Z l.

Definition rollout_sampler (dev : list Square) (b : Board) : Sampler :=
  let weights := rollout_weights dev b in
  let moves := weights.*1 in
  let probabilities := weights.*2 in
  let total_weight := Zsum probabilities in
  if (total_weight =? 0)%Z then UniformChoice moves
  else WeightedChoices moves
         ((λ p, inject_Z p / inject_Z total_weight)%Q <$> probabilities).

Definition run_sampler (s : Sampler) : M Move :=
  match s with
  | UniformChoice moves => random_choice moves
  | WeightedChoices moves probabilities => random_choices moves probabilities
  end.

Definition rollout_policy_with (dev : list Square) (board : nat) : M Move :=
  b <- get_board board ;;
  run_sampler (rollout_sampler dev b).

Definition piece_development_squares : list Square := [C3; G3; C6; G6; F3; F6].

(** [rollout_policy] of the first engine *)
Definition rollout_policy : nat → M Move :=
  rollout_policy_with piece_development_squares.
End Rollout.

(** ** UCT *)

Definition is_nil {A} (l : list A) : bool :=
  match l with [] => true | _ => false end.

Section Search.
Context `{BoardApi} `{PyFloat}.

(** The two engines differ in how the move to expand is taken from a node
    and in the rollout policy. *)
Variable pick_move : nat → M Move.
Variable policy : nat → M Move.

(** [state.push(node.move)] *)
Definition push_node_move (state node : nat) : M unit :=
  c <- get_node node ;;
  match move c with
  | Some m => board_push state m
  | None => raise TypeError
  end.

(** [while node.untriedMoves == [] and node.childNodes != []] *)
Fixpoint select_loop (fuel : nat) (node state : nat) : M nat :=
  n <- get_node node ;;
  if is_nil (untriedMoves n) && negb (is_nil (childNodes n)) then
    match fuel with
    | O => raise OutOfFuel
    | S fuel' =>
        node' <- UCTSelectChild node ;;
        push_node_move state node' ;;
        select_loop fuel' node' state
    end
  else ret node.

(** [if node.untriedMoves != []] *)
Definition expand (node state : nat) : M nat :=
  n <- get_node node ;;
  if negb (is_nil (untriedMoves n)) then
    m <- pick_move node ;;
    board_push state m ;;
    AddChild node m state
  else ret node.

(** [while not state.is_game_over()] *)
Fixpoint simulate (fuel : nat) (state : nat) : M unit :=
  b <- get_board state ;;
  if is_game_over b then ret tt
  else
    match fuel with
    | O => raise OutOfFuel
    | S fuel' =>
        m <- policy state ;;
        board_push state m ;;
        simulate fuel' state
    end.

(** [while node != None] *)
Fixpoint backpropagate (fuel : nat) (node : option nat) (state : nat) : M unit :=
  match node with
  | None => ret tt
  | Some id =>
      match fuel with
      | O => raise OutOfFuel
      | S fuel' =>
          b <- get_board state ;;
          Update id (result b) ;;
          n <- get_node id ;;
          backpropagate fuel' (parentNode n) state
      end
  end.

(** One round of [for _ in range(itermax)] *)
Definition iteration (fuel : nat) (rootnode rootstate : nat) : M unit :=
  state <- board_copy rootstate ;;
  node <- select_loop fuel rootnode state ;;
  node <- expand node state ;;
  simulate fuel state ;;
  backpropagate fuel (Some node) state.

Fixpoint iterate (rounds : nat) (fuel : nat) (rootnode rootstate : nat) : M unit :=
  match rounds with
  | O => ret tt
  | S rounds' =>
      iteration fuel rootnode rootstate ;;
      iterate rounds' fuel rootnode rootstate
  end.

(** [UCT] up to the end of its loop: the root node of the finished tree *)
Definition UCT_tree (fuel : nat) (rootstate : nat) (itermax : Z) : M nat :=
  rootnode <- Node_init None None rootstate ;;
  iterate (Z.to_nat itermax) fuel rootnode rootstate ;;
  ret rootnode.

(** The key [lambda c: c.visits] of the node that an index names. *)
Definition key_of_visits (ns : list Node) (c : nat) : res Z :=
  match ns !! c with Some cn => Ok (visits cn) | None => Err BadRef end.

(** [sorted(rootnode.childNodes, key=lambda c: c.visits)[-1].move] *)
Definition most_visited (rootnode : nat) : M (option Move) :=
  n <- get_node rootnode ;;
  best <- (λ w, lift (sorted_last Z.ltb (key_of_visits (nodes w))
                        (childNodes n)) w) ;;
  c <- get_node best ;;
  ret (move c).

Definition UCT_with (fuel : nat) (rootstate : nat) (itermax : Z) : M (option Move) :=
  rootnode <- UCT_tree fuel rootstate itermax ;;
  most_visited rootnode.
End Search.

(** ** The first engine *)

Section Plain.
Context `{BoardApi} `{PyFloat}.

(** [m = random.choice(node.untriedMoves)] *)
Definition choose_untried (node : nat) : M Move :=
  n <- get_node node ;;
  random_choice (untriedMoves n).

Definition UCT : nat → nat → Z → M (option Move) :=
  UCT_with choose_untried rollout_policy.
End Plain.

(** ** The opening table *)

(** A dictionary display: a later entry for the same key replaces the value
    of the earlier one. *)
Definition dict_literal (entries : list (string * string)) : gmap string string :=
  foldl (λ d kv, <[kv.1 := kv.2]> d) ∅ entries.

Definition OPENINGS : gmap string string := dict_literal [
  ("e4 e5", "Nf3");
  ("e4 e5 Nf3 Nc6", "Bb5");
  ("e4 e5 Nf3 Nc6 Bb5 Nf6", "O-O");
  ("e4 e5 Nf3 Nc6 Bb5 Nf6 O-O Nxe4", "d4");
  ("e4 e5 Nf3 Nc6 Bb5 Nf6 O-O Nxe4 d4 Nd6", "Bxc6");
  ("e4 e5 Nf3 Nc6 Bb5 Nf6 O-O Nxe4 d4 Nd6 Bxc6 dxc6", "dxe5");
  ("e4 e5 Nf3 Nc6 Bb5 Nf6 O-O Nxe4 d4 Nd6 Bxc6 dxc6 dxe5 Nf5", "Qxd8+");
  ("e4 e5 Nf3 Nc6 Bb5 Nf6 O-O Nxe4 d4 Nd6 Bxc6 dxc6 dxe5 Nf5 Qxd8+ Kxd8", "Nc3");
  ("e4 c5", "Nf3");
  ("e4 c5 Nf3 Nc6", "d4");
  ("e4 c5 Nf3 Nc6 d4 cxd4", "Nxd4");
  ("e4 c5 Nf3 Nc6 d4 cxd4 Nxd4 g6", "Nc3");
  ("e4 c5 Nf3 Nc6 d4 cxd4 Nxd4 g6 Nc3 Bg7", "Be3");
  ("e4 c5 Nf3 Nc6 d4 cxd4 Nxd4 g6 Nc3 Bg7 Be3 Nf6", "Bc4");
  ("e4 c5", "Nf3");
  ("e4 c5 Nf3 Nc6", "d4");
  ("e4 c5 Nf3 Nc6 d4 cxd4", "Nxd4");
  ("e4 c5 Nf3 Nc6 d4 cxd4 Nxd4 g6", "Nc3");
  ("e4 c5 Nf3 Nc6 d4 cxd4 Nxd4 Bg7", "Be3");
  ("e4 c5 Nf3 Nc6 d4 cxd4 Nxd4 Bg7 Be3 Nf6", "f3")
].

(** [" ".join(str(board.move_stack[i]) for i in range(len(board.move_stack)))] *)
Definition board_str (stack : list Move) : res string :=
  res_bind (map_res uci stack) (λ strs, Ok (String.concat " " strs)).

(** The body of [get_opening_move] on the move stack of the board. *)
Definition opening_lookup (table : gmap string string) (stack : list Move)
  : res (option Move) :=
  res_bind (board_str stack) (λ s,
    match table !! s with
    | Some reply => res_bind (from_uci reply) (λ m, Ok (Some m))
    | None => Ok None
    end).

Section Game.
Context `{BoardApi} `{PyFloat}.

Definition get_opening_move (board : nat) : M (option Move) :=
  b <- get_board board ;;
  lift (opening_lookup OPENINGS (move_stack b)).

(** The choice of the move in [play_game]: the opening move when there is
    one, [UCT(board, 50)] otherwise. *)
Definition choose_move (fuel : nat) (board : nat) : M (option Move) :=
  opening_move <- get_opening_move board ;;
  match opening_move with
  | Some m => ret (Some m)
  | None => UCT fuel board 50%Z
  end.

(** The loop of [play_game], without its printing. *)
Fixpoint play_game_from (plies fuel : nat) (board : nat) : M unit :=
  b <- get_board board ;;
  if is_game_over b then ret tt
  else
    match plies with
    | O => raise OutOfFuel
    | S plies' =>
        mv <- choose_move fuel board ;;
        match mv with
        | Some m => board_push board m
        | None => raise TypeError
        end ;;
        play_game_from plies' fuel board
    end.
End Game.

(** ** The second engine ("quantum enhanced") *)

Module Quantum.
Section Quantum.
Context `{BoardApi} `{PyFloat}.

(** [grover_search] computes [sqrt(n).bit_length()] first; [sqrt(n)] is a
    float, which has no [bit_length], so the call raises before any
    circuit is built. *)
Definition grover_search (moves : list (option Move)) : M Move :=
  raise AttributeError.

(** [[child.move for child in node.childNodes]] *)
Definition child_moves (n : Node) : M (list (option Move)) :=
  λ w, lift (map_res (λ c, match nodes w !! c with
                           | Some cn => Ok (move cn)
                           | None => Err BadRef
                           end) (childNodes n)) w.

Definition quantum_selection (node : nat) : M Move :=
  n <- get_node node ;;
  if negb (is_nil (untriedMoves n)) then random_choice (untriedMoves n)
  else
    moves <- child_moves n ;;
    grover_search moves.

(** [rollout_policy] of the second engine: no development squares *)
Definition rollout_policy : nat → M Move := rollout_policy_with [].

Definition UCT : nat → nat → Z → M (option Move) :=
  UCT_with quantum_selection rollout_policy.
End Quantum.

Definition OPENINGS : gmap string string := dict_literal [
  ("e4 e5", "Nf3");
  ("e4 e5 Nf3 Nc6", "Bb5");
  ("e4 e5 Nf3 Nc6 Bb5 Nf6", "O-O");
  ("e4 e5 Nf3 Nc6 Bb5 Nf6 O-O Nxe4", "d4");
  ("e4 e5 Nf3 Nc6 Bb5 Nf6 O-O Nxe4 d4 Nd6", "Bxc6");
  ("e4 e5 Nf3 Nc6 Bb5 Nf6 O-O Nxe4 d4 Nd6 Bxc6 dxc6", "dxe5");
  ("e4 e5 Nf3 Nc6 Bb5 Nf6 O-O Nxe4 d4 Nd6 Bxc6 dxc6 dxe5 Nf5", "Qxd8+");
  ("e4 e5 Nf3 Nc6 Bb5 Nf6 O-O Nxe4 d4 Nd6 Bxc6 dxc6 dxe5 Nf5 Qxd8+ Kxd8", "Nc3");
  ("e4 c5", "Nf3");
  ("e4 c5 Nf3 Nc6", "d4");
  ("e4 c5 Nf3 Nc6 d4 cxd4", "Nxd4");
  ("e4 c5 Nf3 Nc6 d4 cxd4 Nxd4 g6", "Nc3");
  ("e4 c5 Nf3 Nc6 d4 cxd4 Nxd4 g6 Nc3 Bg7", "Be3");
  ("e4 c5 Nf3 Nc6 d4 cxd4 Nxd4 g6 Nc3 Bg7 Be3 Nf6", "Bc4");
  ("e4 c5 Nf3 Nc6 d4 cxd4 Nxd4 Bg7", "Be3");
  ("e4 c5 Nf3 Nc6 d4 cxd4 Nxd4 Bg7 Be3 Nf6", "f3")
].
End Quantum.

(** ** A small game and a stand-in for floats, to run the engine on

    A board is its move stack; the game is over after three plies.  White
    wins when the first move was [e2e4], Black when the second was [e7e5],
    otherwise the game is drawn.  A piece on [e2] counts as pinned and, on
    the first ply, a move to [e5] as a capture. *)
Definition e2e4 : Move := mkMove E2 E4 None None.
Definition e7e5 : Move := mkMove E7 E5 None None.

Module Toy.

Definition toy_result (b : list Move) : string :=
  match b with
  | m1 :: rest =>
      if decide (m1 = e2e4) then "1-0"
      else match rest with
           | m2 :: _ => if decide (m2 = e7e5) then "0-1" else "1/2-1/2"
           | [] => "*"
           end
  | [] => "*"
  end.

Global Instance toy_board : BoardApi := {|
  Board := list Move;
  legal_moves b := if Nat.ltb (length b) 3 then [e2e4; e7e5] else [];
  turn b := Nat.even (length b);
  push b m := b ++ [m];
  is_game_over b := Nat.leb 3 (length b);
  result := toy_result;
  move_stack b := b;
  is_capture b m := Nat.eqb (to_square m) E5 && Nat.eqb (length b) 0;
  is_check b := false;
  gives_check b m := false;
  is_into_check b m := false;
  is_pinned b c sq := Nat.eqb sq E2;
  is_castling b m := false;
|}.

(** Rationals in the place of floats: [x - 1] stands for [log x] and [x] for
    [sqrt x]. *)
Global Instance toy_float : PyFloat := {|
  float := Q;
  of_Q q := q;
  fadd := Qplus;
  fmul := Qmult;
  fdiv := Qdiv;
  flog x := (x - 1)%Q;
  fsqrt x := x;
  fleb := Qle_bool;
|}.

(** The store with one board, the start position, and the given tape. *)
Definition start (tape : list nat) : World := mkWorld [] [[]] tape.

(** The store with one board after 1. e4. *)
Definition after_e4 (tape : list nat) : World := mkWorld [] [[e2e4]] tape.

(** The store with one board after 1. e4 e5. *)
Definition after_e4_e5 (tape : list nat) : World := mkWorld [] [[e2e4; e7e5]] tape.

End Toy.

(** * Properties *)

(** ** Results and the store monad *)

Lemma res_bind_Ok {A B} (r : res A) (k : A → res B) (b : B) :
  res_bind r k = Ok b ↔ ∃ a, r = Ok a ∧ k a = Ok b.
Proof.
  destruct r as [a|e]; simpl; split.
  - eauto.
  - by intros (a' & [= ->] & ?).
  - done.
  - by intros (a' & ? & ?).
Qed.

Lemma bind_Ok `{BoardApi} {A B} (m : M A) (k : A → M B) w r :
  bind m k w = Ok r ↔ ∃ a w', m w = Ok (a, w') ∧ k a w' = Ok r.
Proof.
  unfold bind. destruct (m w) as [[a w']|e]; split.
  - eauto.
  - by intros (a' & w'' & [= -> ->] & ?).
  - done.
  - by intros (a' & w'' & ? & ?).
Qed.

Lemma bind_cong `{BoardApi} {A B} (m : M A) (k k' : A → M B) w :
  (∀ a w', m w = Ok (a, w') → k a w' = k' a w') → bind m k w = bind m k' w.
Proof. intros Hk. unfold bind. destruct (m w) as [[a w']|e]; [by apply Hk|done]. Qed.

Lemma bind_cong_l `{BoardApi} {A B} (m m' : M A) (k : A → M B) w :
  m w = m' w → bind m k w = bind m' k w.
Proof. intros Hm. unfold bind. by rewrite Hm. Qed.

Lemma lift_Ok `{BoardApi} {A} (r : res A) w a w' :
  lift r w = Ok (a, w') ↔ r = Ok a ∧ w' = w.
Proof.
  unfold lift. destruct r as [x|e]; split.
  - by intros [= -> ->].
  - by intros [[= ->] ->].
  - done.
  - by intros [? _].
Qed.

Lemma ret_Ok `{BoardApi} {A} (a : A) w b w' :
  ret a w = Ok (b, w') ↔ b = a ∧ w' = w.
Proof.
  unfold ret. split.
  - by intros [= -> ->].
  - by intros [-> ->].
Qed.

(** ** The opening table is never hit *)

Section Openings.

Lemma dict_literal_lookup entries k v :
  dict_literal entries !! k = Some v → (k, v) ∈ entries.
Proof.
  unfold dict_literal.
  assert (∀ d : gmap string string,
    foldl (λ d kv, <[kv.1 := kv.2]> d) d entries !! k = Some v →
    d !! k = Some v ∨ (k, v) ∈ entries) as Hgen.
  { induction entries as [|[k' v'] entries IH]; intros d Hd; simpl in *.
    - by left.
    - destruct (IH _ Hd) as [Hin|Hin].
      + destruct (decide (k' = k)) as [->|Hne].
        * rewrite lookup_insert_eq in Hin. injection Hin as ->.
          right. apply list_elem_of_here.
        * rewrite lookup_insert_ne in Hin by done. by left.
      + right. by apply list_elem_of_further. }
  intros Hk. destruct (Hgen ∅ Hk) as [Hempty|Hin]; [|done].
  by rewrite lookup_empty in Hempty.
Qed.

(** Every key of the table has a space as its third character: the keys
    start with a two-letter pawn move. *)
Definition third_is_space (s : string) : bool :=
  bool_decide (String.get 2 s = Some " "%char).

Lemma OPENINGS_keys k v :
  OPENINGS !! k = Some v → third_is_space k = true ∧ from_uci v = Err ValueError.
Proof.
  intros Hin%dict_literal_lookup.
  repeat (apply elem_of_cons in Hin as [[= -> ->]|Hin];
          [by vm_compute|]).
  by apply elem_of_nil in Hin.
Qed.

Lemma square_name_shape sq s :
  square_name sq = Ok s →
  String.length s = 2%nat ∧ third_is_space (s +:+ s) = false
  ∧ String.get 0 s ≠ Some " "%char.
Proof.
  unfold square_name. destruct (SQUARE_NAMES !! sq) as [t|] eqn:Hsq; [|done].
  intros [= <-]. apply list_elem_of_lookup_2 in Hsq.
  revert t Hsq. apply Forall_forall.
  set (names := SQUARE_NAMES). vm_compute in names. subst names.
  repeat (apply Forall_cons; split; [by vm_compute|]). by apply Forall_nil.
Qed.

End Openings.

Section OpeningsLookup.

Lemma get_append_l (s1 s2 : string) n :
  (n < String.length s1)%nat → String.get n (s1 +:+ s2) = String.get n s1.
Proof. intros Hn. symmetry. by apply append_correct1. Qed.

Lemma get_append_r (s1 s2 : string) n :
  String.get (String.length s1 + n) (s1 +:+ s2) = String.get n s2.
Proof. rewrite Nat.add_comm. symmetry. apply append_correct2. Qed.

Lemma length_append (s1 s2 : string) :
  String.length (s1 +:+ s2) = (String.length s1 + String.length s2)%nat.
Proof.
  induction s1 as [|c s1 IH]; [done|].
  change (String c s1 +:+ s2) with (String c (s1 +:+ s2)). simpl. by rewrite IH.
Qed.

Lemma append_empty_r (s : string) : s +:+ "" = s.
Proof.
  induction s as [|c s IH]; [done|].
  change (String c s +:+ "") with (String c (s +:+ "")). by rewrite IH.
Qed.

(** The third character of [str(move)] is the file letter of a square, an
    at sign or a zero, never a space. *)
Lemma uci_third m s :
  uci m = Ok s → (3 ≤ String.length s)%nat ∧ third_is_space s = false.
Proof.
  unfold uci. intros Hs.
  assert (∀ f t u, square_name f = Ok t → String.length u = 2%nat →
    ∀ rest, (3 ≤ String.length (u +:+ t +:+ rest))%nat
            ∧ third_is_space (u +:+ t +:+ rest) = false) as Hshape.
  { intros f t u (Hlen & _ & Hget)%square_name_shape Hu rest.
    split; [rewrite !length_append; lia|].
    unfold third_is_space. apply bool_decide_eq_false.
    replace 2%nat with (String.length u + 0)%nat by lia.
    rewrite get_append_r, get_append_l by lia. done. }
  destruct (drop m) as [d|].
  - apply res_bind_Ok in Hs as (t & Ht & [= <-]).
    rewrite <- (append_empty_r t).
    replace (upper_symbol d +:+ "@" +:+ t +:+ "")
      with ((upper_symbol d +:+ "@") +:+ t +:+ "") by by destruct d.
    eapply Hshape; [done|]. by destruct d.
  - destruct (promotion m) as [p|].
    + apply res_bind_Ok in Hs as (f & Hf & Hs).
      apply res_bind_Ok in Hs as (t & Ht & [= <-]).
      eapply Hshape; [done|]. by apply square_name_shape in Hf as (? & _).
    + destruct (move_bool m).
      * apply res_bind_Ok in Hs as (f & Hf & Hs).
        apply res_bind_Ok in Hs as (t & Ht & [= <-]).
        rewrite <- (append_empty_r t).
        eapply Hshape; [done|]. by apply square_name_shape in Hf as (? & _).
      * injection Hs as <-. split; [simpl; lia|by vm_compute].
Qed.

Lemma map_res_Ok_cons {A B} (k : A → res B) x l ys :
  map_res k (x :: l) = Ok ys ↔
  ∃ y ys', k x = Ok y ∧ map_res k l = Ok ys' ∧ ys = y :: ys'.
Proof.
  simpl. split.
  - intros (y & Hy & (ys' & Hys & [= <-])%res_bind_Ok)%res_bind_Ok. eauto.
  - intros (y & ys' & -> & -> & ->). done.
Qed.

(** The string that [get_opening_move] looks up is empty or has no space
    in third place. *)
Lemma board_str_third stack s :
  board_str stack = Ok s → s = "" ∨ third_is_space s = false.
Proof.
  unfold board_str. intros (strs & Hstrs & [= <-])%res_bind_Ok.
  destruct stack as [|m stack]; [injection Hstrs as <-; by left|].
  apply map_res_Ok_cons in Hstrs as (y & ys & Hy & _ & ->).
  right. apply uci_third in Hy as [Hlen Hthird].
  destruct ys as [|y' ys]; [done|].
  change (String.concat " " (y :: y' :: ys))
    with (y +:+ " " +:+ String.concat " " (y' :: ys)).
  unfold third_is_space in *. apply bool_decide_eq_false.
  apply bool_decide_eq_false in Hthird.
  by rewrite get_append_l by lia.
Qed.

Lemma board_str_not_key stack s :
  board_str stack = Ok s → OPENINGS !! s = None.
Proof.
  intros [->|Hthird]%board_str_third; [by vm_compute|].
  destruct (OPENINGS !! s) as [v|] eqn:Hv; [|done].
  apply OPENINGS_keys in Hv as [Hkey _]. congruence.
Qed.

(** [get_opening_move] never finds an opening move: the lookup string is
    in UCI notation ([e2e4 e7e5]), the keys of the table are not. *)
Lemma opening_lookup_None stack :
  opening_lookup OPENINGS stack = Ok None
  ∨ ∃ e, opening_lookup OPENINGS stack = Err e.
Proof.
  unfold opening_lookup. destruct (board_str stack) as [s|e] eqn:Hs; simpl.
  - left. by rewrite (board_str_not_key _ _ Hs).
  - right. eauto.
Qed.

(** A hit could not be returned either: no reply in the table is in the
    notation that [chess.Move.from_uci] reads. *)
Lemma opening_reply_unreadable k v :
  OPENINGS !! k = Some v → from_uci v = Err ValueError.
Proof. intros Hk. by apply OPENINGS_keys in Hk as [_ ?]. Qed.

End OpeningsLookup.

(** C1 (the code differs): after 1. e4 e5 the move stack reads [e2e4 e7e5],
    which is no key of the opening table; [get_opening_move] returns [None]
    and [play_game] calls [UCT(board, 50)]. *)
Theorem opening_after_e4_e5_goes_to_search `{BoardApi} `{PyFloat}
    (fuel board : nat) (b : Board) (w : World) :
  boards w !! board = Some b →
  move_stack b = [e2e4; e7e5] →
  board_str (move_stack b) = Ok "e2e4 e7e5"
  ∧ get_opening_move board w = Ok (None, w)
  ∧ choose_move fuel board w = UCT fuel board 50%Z w.
Proof.
  intros Hb Hstack.
  assert (get_opening_move board w = Ok (None, w)) as Hmiss.
  { unfold get_opening_move, bind, get_board. rewrite Hb, Hstack. by vm_compute. }
  split; [by rewrite Hstack|]. split; [done|].
  unfold choose_move, bind. by rewrite Hmiss.
Qed.

Lemma opening_after_e4_e5_goes_to_search_witness :
  board_str [e2e4; e7e5] = Ok "e2e4 e7e5"
  ∧ get_opening_move 0 (Toy.after_e4_e5 []) = Ok (None, Toy.after_e4_e5 [])
  ∧ choose_move 5 0 (Toy.after_e4_e5 []) = UCT 5 0 50%Z (Toy.after_e4_e5 []).
Proof.
  apply (opening_after_e4_e5_goes_to_search (H := Toy.toy_board) 5 0
           [e2e4; e7e5] (Toy.after_e4_e5 [])); reflexivity.
Defined.

(** ** rollout_policy: the weights and the sampler *)

Section RolloutFacts.
Context `{BoardApi}.

Lemma dict_set_fresh (k : Move) (v : Z) d :
  k ∉ d.*1 → dict_set k v d = d ++ [(k, v)].
Proof.
  induction d as [|[k' v'] d IH]; intros Hk; simpl; [done|].
  rewrite fmap_cons, not_elem_of_cons in Hk. destruct Hk as [Hne Hk].
  destruct (decide (k = k')) as [->|_]; [done|]. by rewrite IH.
Qed.

Lemma dict_comprehension (l : list Move) (v : Z) :
  NoDup l → foldl (λ d m, dict_set m v d) [] l = (λ m, (m, v)) <$> l.
Proof.
  intros Hl. induction l as [|m l IH] using rev_ind; [done|].
  apply NoDup_app in Hl as (Hl & Hm & _).
  rewrite foldl_snoc, IH, fmap_app by done. apply dict_set_fresh.
  rewrite <- list_fmap_compose. simpl. rewrite list_fmap_id.
  intros Hin. apply (Hm m Hin), list_elem_of_here.
Qed.

Definition add_at (k : Move) (delta : Z) (kv : Move * Z) : Move * Z :=
  (kv.1, if decide (kv.1 = k) then (kv.2 + delta)%Z else kv.2).

Lemma add_at_absent (k : Move) (delta : Z) d :
  k ∉ d.*1 → dict_get k d = None ∧ add_at k delta <$> d = d.
Proof.
  induction d as [|[k' v'] d IH]; intros Hk; [done|].
  rewrite fmap_cons, not_elem_of_cons in Hk. destruct Hk as [Hne Hk].
  simpl in Hne. destruct (IH Hk) as [Hget Hmap]. split.
  - simpl. by rewrite decide_False.
  - rewrite fmap_cons, Hmap. unfold add_at. simpl.
    rewrite decide_False by done. done.
Qed.

Lemma dict_add_fmap (k : Move) (delta : Z) d :
  NoDup d.*1 → dict_add k delta d = add_at k delta <$> d.
Proof.
  induction d as [|[k' v'] d IH]; intros Hd; [done|].
  rewrite fmap_cons in Hd. apply NoDup_cons in Hd as [Hk' Hd]. simpl in Hk'.
  specialize (IH Hd). unfold dict_add in *. rewrite fmap_cons.
  unfold add_at at 1. simpl.
  destruct (decide (k = k')) as [->|Hne].
  - simpl. rewrite ?decide_True by done.
    f_equal. symmetry. by apply add_at_absent.
  - rewrite (decide_False (P := k' = k)) by done.
    destruct (dict_get k d) as [v|]; simpl.
    + by rewrite IH.
    + by rewrite <- IH.
Qed.

Lemma add_at_keys k delta (d : list (Move * Z)) : (add_at k delta <$> d).*1 = d.*1.
Proof. rewrite <- list_fmap_compose. by apply list_fmap_ext. Qed.

Lemma dict_add_loop (g : Move → Z) (l : list Move) d :
  NoDup d.*1 → NoDup l →
  foldl (λ d m, dict_add m (g m) d) d l
  = (λ kv, (kv.1, (kv.2 + if decide (kv.1 ∈ l) then g kv.1 else 0)%Z)) <$> d.
Proof.
  revert d. induction l as [|m l IH]; intros d Hd Hl; simpl.
  - rewrite <- (list_fmap_id d) at 1. apply list_fmap_ext.
    intros _ [k v] _. cbn [fst snd]. by rewrite Z.add_0_r.
  - apply NoDup_cons in Hl as [Hm Hl].
    rewrite dict_add_fmap by done.
    rewrite IH by (by rewrite ?add_at_keys).
    rewrite <- list_fmap_compose. apply list_fmap_ext.
    intros _ [k v] _. unfold compose, add_at. cbn [fst snd]. f_equal.
    destruct (decide (k = m)) as [->|Hne].
    + rewrite (decide_False (P := m ∈ l)) by done.
      rewrite (decide_True (P := m ∈ m :: l)) by apply list_elem_of_here. lia.
    + destruct (decide (k ∈ l)) as [Hin|Hin].
      * by rewrite (decide_True (P := k ∈ m :: l)) by by apply list_elem_of_further.
      * rewrite (decide_False (P := k ∈ m :: l)); [done|].
        rewrite not_elem_of_cons. done.
Qed.

(** The weight of a move when [rollout_policy] samples: one plus the
    adjustments, with no lower bound. *)
Definition move_weight (dev : list Square) (b : Board) (m : Move) : Z :=
  (1 + move_bonus dev b m)%Z.

Lemma rollout_weights_NoDup dev b :
  NoDup (legal_moves b) →
  rollout_weights dev b = (λ m, (m, move_weight dev b m)) <$> legal_moves b.
Proof.
  intros Hnd. unfold rollout_weights. rewrite dict_comprehension by done.
  rewrite dict_add_loop; [|by rewrite <- list_fmap_compose, list_fmap_id|done].
  rewrite <- list_fmap_compose. apply list_fmap_ext.
  intros i m Hm. unfold compose, move_weight. cbn [fst snd].
  rewrite decide_True by by eapply list_elem_of_lookup_2. done.
Qed.
End RolloutFacts.

Section RolloutSampler.
Context `{BoardApi}.

Lemma rollout_sampler_NoDup dev b :
  NoDup (legal_moves b) →
  let weights := move_weight dev b <$> legal_moves b in
  rollout_sampler dev b
  = if (Zsum weights =? 0)%Z then UniformChoice (legal_moves b)
    else WeightedChoices (legal_moves b)
           ((λ p, inject_Z p / inject_Z (Zsum weights))%Q <$> weights).
Proof.
  intros Hnd. unfold rollout_sampler. rewrite rollout_weights_NoDup by done.
  rewrite <- !list_fmap_compose.
  change (fst ∘ (λ m, (m, move_weight dev b m))) with (@id Move).
  change (snd ∘ (λ m, (m, move_weight dev b m))) with (move_weight dev b).
  by rewrite list_fmap_id.
Qed.

End RolloutSampler.




(** ** Update *)

Section UpdateFacts.
Context `{BoardApi}.

Lemma get_node_Ok id w n w' :
  get_node id w = Ok (n, w') ↔ nodes w !! id = Some n ∧ w' = w.
Proof.
  unfold get_node. destruct (nodes w !! id) as [x|]; split.
  - by intros [= -> ->].
  - by intros [[= ->] ->].
  - done.
  - by intros [? _].
Qed.

Lemma get_node_lookup id w n :
  nodes w !! id = Some n → get_node id w = Ok (n, w).
Proof. intros Hn. by apply get_node_Ok. Qed.

Lemma set_node_Ok id n w u w' :
  set_node id n w = Ok (u, w') ↔
  is_Some (nodes w !! id)
  ∧ w' = mkWorld (<[id := n]> (nodes w)) (boards w) (rng w).
Proof.
  unfold set_node. destruct (nodes w !! id) as [x|]; split.
  - intros [= <- <-]. eauto.
  - intros [_ ->]. by destruct u.
  - done.
  - by intros [[? [=]] _].
Qed.

Lemma Update_Ok self result w u w' :
  Update self result w = Ok (u, w') ↔
  ∃ n, nodes w !! self = Some n
       ∧ w' = mkWorld (<[self := Update_node result n]> (nodes w))
                (boards w) (rng w).
Proof.
  unfold Update. rewrite bind_Ok. split.
  - intros (n & w1 & [Hn ->]%get_node_Ok & [_ ->]%set_node_Ok). eauto.
  - intros (n & Hn & ->). exists n, w. split; [by apply get_node_Ok|].
    apply set_node_Ok. eauto.
Qed.

(** What the claim C3 says of one call: an unknown result aborts. *)
Definition Update_aborts (w : World) (self : nat) (result : string) : Prop :=
  result ≠ "1-0" → result ≠ "0-1" → result ≠ "1/2-1/2" →
  ∃ e, Update self result w = Err e.
End UpdateFacts.

(** The store with the start position and a fresh root node for it. *)
Definition toy_root_world : World :=
  mkWorld [mkNode None None [] 0%Q 0%Z [e2e4; e7e5] true] [[]] [].

(** C3 (as stated, refuted): [Update] with the result ["*"] of an unfinished
    game returns normally; the node has one more visit and the same wins. *)
Lemma Update_unknown_counterexample :
  Update 0 "*" toy_root_world
  = Ok (tt, mkWorld [mkNode None None [] 0%Q 1%Z [e2e4; e7e5] true] [[]] [])
  ∧ ¬ Update_aborts toy_root_world 0 "*".
Proof.
  split; [reflexivity|].
  intros Habort. destruct Habort as [e He]; discriminate.
Qed.

(** C3 (amended): [Update] with a result other than ['1-0'], ['0-1'] and
    ['1/2-1/2'] raises nothing: it adds one to [visits] and leaves [wins]
    as it was. *)
Theorem Update_unknown_result `{BoardApi} (w : World) (self : nat) (n : Node)
    (result : string) :
  nodes w !! self = Some n →
  result ≠ "1-0" → result ≠ "0-1" → result ≠ "1/2-1/2" →
  Update self result w
  = Ok (tt, mkWorld
              (<[self := mkNode (move n) (parentNode n) (childNodes n) (wins n)
                           (visits n + 1)%Z (untriedMoves n) (playerJustMoved n)]>
                 (nodes w))
              (boards w) (rng w)).
Proof.
  intros Hn H1 H2 H3. apply Update_Ok. exists n. split; [done|].
  unfold Update_node.
  apply String.eqb_neq in H1, H2, H3. by rewrite H1, H2, H3.
Qed.

Lemma Update_unknown_result_witness :
  Update 0 "*" toy_root_world
  = Ok (tt, mkWorld [mkNode None None [] 0%Q 1%Z [e2e4; e7e5] true] [[]] []).
Proof.
  apply (Update_unknown_result (H := Toy.toy_board) toy_root_world 0
           (mkNode None None [] 0%Q 0%Z [e2e4; e7e5] true) "*"); done.
Defined.

(** ** The second engine expands like the first *)

Section QuantumFacts.
Context `{BoardApi} `{PyFloat}.

(** A computation that never ends with the exception [e]. *)
Definition never_raises {A} (e : exn) (m : M A) : Prop := ∀ w, m w ≠ Err e.

Lemma never_raises_bind {A B} e (m : M A) (k : A → M B) :
  never_raises e m → (∀ a, never_raises e (k a)) → never_raises e (bind m k).
Proof.
  intros Hm Hk w. unfold bind. specialize (Hm w).
  destruct (m w) as [[a w']|e']; [apply Hk|]. congruence.
Qed.

Lemma never_raises_ret {A} e (a : A) : never_raises e (ret a).
Proof. by intros w. Qed.

Lemma never_raises_raise {A} e e' : e' ≠ e → never_raises e (raise (A := A) e').
Proof. intros Hne w. unfold raise. congruence. Qed.

Lemma never_raises_lift {A} e (r : res A) : r ≠ Err e → never_raises e (lift r).
Proof. intros Hr w. unfold lift. destruct r; congruence. Qed.

Lemma never_raises_get_node e id : e ≠ BadRef → never_raises e (get_node id).
Proof. intros He w. unfold get_node. destruct (nodes w !! id); congruence. Qed.

Lemma never_raises_set_node e id n : e ≠ BadRef → never_raises e (set_node id n).
Proof. intros He w. unfold set_node. destruct (nodes w !! id); congruence. Qed.

Lemma never_raises_get_board e b : e ≠ BadRef → never_raises e (get_board b).
Proof. intros He w. unfold get_board. destruct (boards w !! b); congruence. Qed.

Lemma never_raises_board_copy e b : e ≠ BadRef → never_raises e (board_copy b).
Proof. intros He w. unfold board_copy. destruct (boards w !! b); congruence. Qed.

Lemma never_raises_board_push e b m : e ≠ BadRef → never_raises e (board_push b m).
Proof. intros He w. unfold board_push. destruct (boards w !! b); congruence. Qed.

Lemma never_raises_random_choice {A} e (l : list A) :
  e ≠ IndexError → never_raises e (random_choice l).
Proof. intros He w. unfold random_choice. destruct (l !! _); congruence. Qed.

Lemma never_raises_random_choices {A} (l : list A) ps :
  never_raises AttributeError (random_choices l ps).
Proof.
  unfold random_choices.
  destruct (negb _); [by apply never_raises_raise|].
  destruct (Qle_bool _ _); [by apply never_raises_raise|].
  by apply never_raises_random_choice.
Qed.

Lemma map_res_never {A B} e (k : A → res B) l :
  (∀ x, k x ≠ Err e) → map_res k l ≠ Err e.
Proof.
  intros Hk. induction l as [|x l IH]; simpl; [done|].
  specialize (Hk x). destruct (k x); simpl; [|congruence].
  destruct (map_res k l); simpl; congruence.
Qed.

Lemma sorted_last_never {K A} e ltb (key : A → res K) l :
  e ≠ IndexError → (∀ x, key x ≠ Err e) → sorted_last ltb key l ≠ Err e.
Proof.
  intros He Hk. unfold sorted_last.
  pose proof (map_res_never e (λ x, res_bind (key x) (λ k, Ok (k, x))) l) as Hm.
  destruct (map_res _ l) as [kl|e']; simpl.
  - unfold last_item. destruct (last _); simpl; congruence.
  - intros [= ->]. apply Hm; [|done].
    intros x. specialize (Hk x). destruct (key x); simpl; congruence.
Qed.

Lemma uct_key_never v c : uct_key v c ≠ Err AttributeError.
Proof.
  unfold uct_key. repeat (case_match; try congruence).
Qed.

Lemma list_remove_never (m : Move) l : list_remove m l ≠ Err AttributeError.
Proof.
  induction l as [|y l IH]; simpl; [done|].
  destruct (decide (m = y)); [done|]. destruct (list_remove m l); simpl; congruence.
Qed.

Ltac never :=
  repeat lazymatch goal with
    | |- never_raises _ (bind _ _) => apply never_raises_bind; [|intros ?]
    | |- never_raises _ (ret _) => apply never_raises_ret
    | |- never_raises _ (raise _) => by apply never_raises_raise
    | |- never_raises _ (get_node _) => by apply never_raises_get_node
    | |- never_raises _ (set_node _ _) => by apply never_raises_set_node
    | |- never_raises _ (get_board _) => by apply never_raises_get_board
    | |- never_raises _ (board_copy _) => by apply never_raises_board_copy
    | |- never_raises _ (board_push _ _) => by apply never_raises_board_push
    | |- never_raises _ (random_choice _) => by apply never_raises_random_choice
    | |- never_raises _ (random_choices _ _) => apply never_raises_random_choices
    | |- never_raises _ (lift (list_remove _ _)) =>
        apply never_raises_lift; apply list_remove_never
    | |- never_raises _ (if ?c then _ else _) => destruct c
    | |- never_raises _ (match ?c with Some _ => _ | None => _ end) => destruct c
    end.

Lemma never_raises_UCTSelectChild self :
  never_raises AttributeError (UCTSelectChild self).
Proof.
  unfold UCTSelectChild. never. intros w. apply never_raises_lift.
  apply sorted_last_never; [done|]. intros c. unfold key_of.
  destruct (nodes w !! c); [apply uct_key_never|done].
Qed.

Lemma never_raises_AddChild self m s :
  never_raises AttributeError (AddChild self m s).
Proof.
  unfold AddChild, Node_init, new_node. never. done.
Qed.

Lemma never_raises_Update self r : never_raises AttributeError (Update self r).
Proof. unfold Update. never. Qed.

Lemma never_raises_rollout dev board :
  never_raises AttributeError (rollout_policy_with dev board).
Proof.
  unfold rollout_policy_with. never. unfold run_sampler.
  destruct (rollout_sampler dev _); never.
Qed.

Lemma never_raises_select fuel node state :
  never_raises AttributeError (select_loop fuel node state).
Proof.
  revert node. induction fuel as [|fuel IH]; intros node; simpl; never.
  - apply never_raises_UCTSelectChild.
  - unfold push_node_move. never.
  - apply IH.
Qed.

Lemma never_raises_expand node state :
  never_raises AttributeError (expand choose_untried node state).
Proof.
  unfold expand, choose_untried. never. apply never_raises_AddChild.
Qed.

Lemma never_raises_simulate dev fuel state :
  never_raises AttributeError (simulate (rollout_policy_with dev) fuel state).
Proof.
  induction fuel as [|fuel IH]; simpl; never.
  - apply never_raises_rollout.
  - apply IH.
Qed.

Lemma never_raises_backpropagate fuel node state :
  never_raises AttributeError (backpropagate fuel node state).
Proof.
  revert node. induction fuel as [|fuel IH]; intros [id|]; simpl; never.
  - apply never_raises_Update.
  - apply IH.
Qed.

Lemma never_raises_UCT_uniform dev fuel rootstate itermax :
  never_raises AttributeError
    (UCT_with choose_untried (rollout_policy_with dev) fuel rootstate itermax).
Proof.
  unfold UCT_with, UCT_tree, most_visited, Node_init, new_node. never; try done.
  - generalize (Z.to_nat itermax). intros rounds.
    induction rounds as [|rounds IH]; simpl; never; [|apply IH].
    unfold iteration. never.
    + apply never_raises_select.
    + apply never_raises_expand.
    + apply never_raises_simulate.
    + apply never_raises_backpropagate.
  - intros w. apply never_raises_lift. apply sorted_last_never; [done|].
    intros c. unfold key_of_visits. by destruct (nodes w !! c).
Qed.

(** On a node with untried moves [quantum_selection] is [random.choice]
    on them; [UCT] calls it on no other node. *)
Lemma quantum_selection_untried node n w :
  nodes w !! node = Some n → untriedMoves n ≠ [] →
  Quantum.quantum_selection node w = random_choice (untriedMoves n) w.
Proof.
  intros Hn Hne. unfold Quantum.quantum_selection, bind.
  rewrite (get_node_lookup _ _ _ Hn). by destruct (untriedMoves n).
Qed.

Lemma expand_quantum node state w :
  expand Quantum.quantum_selection node state w
  = expand choose_untried node state w.
Proof.
  unfold expand. apply bind_cong. intros n w1 [Hn ->]%get_node_Ok.
  destruct (untriedMoves n) as [|m l] eqn:Hl; simpl; [done|].
  apply bind_cong_l.
  rewrite (quantum_selection_untried node n w Hn) by by rewrite Hl.
  unfold choose_untried, bind. by rewrite (get_node_lookup _ _ _ Hn), Hl.
Qed.

Lemma iteration_quantum policy fuel rootnode rootstate w :
  iteration Quantum.quantum_selection policy fuel rootnode rootstate w
  = iteration choose_untried policy fuel rootnode rootstate w.
Proof.
  unfold iteration. apply bind_cong. intros state w1 _.
  apply bind_cong. intros node w2 _.
  apply bind_cong_l, expand_quantum.
Qed.

Lemma UCT_quantum policy fuel rootstate itermax w :
  UCT_with Quantum.quantum_selection policy fuel rootstate itermax w
  = UCT_with choose_untried policy fuel rootstate itermax w.
Proof.
  unfold UCT_with, UCT_tree. apply bind_cong_l.
  apply bind_cong. intros rootnode w1 _. apply bind_cong_l.
  generalize (Z.to_nat itermax). intros rounds. revert w1.
  induction rounds as [|rounds IH]; intros w1; simpl; [done|].
  rewrite (bind_cong_l _ _ _ _ (iteration_quantum _ _ _ _ _)).
  apply bind_cong. intros _ w2 _. apply IH.
Qed.
End QuantumFacts.

(** C9: in the second engine the expansion step is the uniform random
    expansion of the first.  [quantum_selection] on a node with untried moves
    is [random.choice] on them; [UCT] only calls it under the test that there
    are untried moves, so the whole search is the search with
    [random.choice] in its place, and it never ends with the
    [AttributeError] that every call of [grover_search] raises. *)
Theorem quantum_expansion_is_uniform `{BoardApi} `{PyFloat} :
  (∀ moves w, Quantum.grover_search moves w = Err AttributeError)
  ∧ (∀ node state w,
       expand Quantum.quantum_selection node state w
       = expand choose_untried node state w)
  ∧ (∀ fuel rootstate itermax w,
       Quantum.UCT fuel rootstate itermax w
       = UCT_with choose_untried Quantum.rollout_policy fuel rootstate itermax w)
  ∧ (∀ fuel rootstate itermax w,
       Quantum.UCT fuel rootstate itermax w ≠ Err AttributeError).
Proof.
  split; [done|]. split; [apply expand_quantum|].
  split; [intros; apply UCT_quantum|].
  intros fuel rootstate itermax w. unfold Quantum.UCT. rewrite UCT_quantum.
  apply never_raises_UCT_uniform.
Qed.

(** ** [sorted(...)[-1]]: the last of the items with the greatest key *)

Section SortedFacts.
Context {K A : Type} (leb ltb : K → K → bool).
Hypothesis ltb_leb : ∀ x y, ltb x y = negb (leb y x).
Hypothesis leb_total : ∀ x y, leb x y = true ∨ leb y x = true.
Hypothesis leb_trans : ∀ x y z, leb x y = true → leb y z = true → leb x z = true.

Implicit Types (x y z : K * A) (s l : list (K * A)).

(** One step of a scan that keeps the later of two items unless the
    earlier has a strictly greater key. *)
Definition later_max (best : option (K * A)) x : option (K * A) :=
  match best with
  | None => Some x
  | Some y => if ltb x.1 y.1 then Some y else Some x
  end.

Definition last_is_max s : Prop :=
  ∀ y z, last s = Some z → y ∈ s → leb y.1 z.1 = true.

Lemma insert_sorted_Permutation x s : insert_sorted ltb x s ≡ₚ x :: s.
Proof.
  induction s as [|y s IH]; simpl; [done|].
  destruct (ltb x.1 y.1); [done|]. rewrite IH. apply Permutation_swap.
Qed.

Lemma sorted_Permutation l : sorted ltb l ≡ₚ l.
Proof.
  unfold sorted. induction l as [|x l IH] using rev_ind; [done|].
  rewrite foldl_snoc, insert_sorted_Permutation, IH.
  by rewrite Permutation_cons_append.
Qed.

Lemma ltb_false x y : ltb x.1 y.1 = false → leb y.1 x.1 = true.
Proof. rewrite ltb_leb. by intros ->%negb_false_iff. Qed.

Lemma ltb_true x y : ltb x.1 y.1 = true → leb x.1 y.1 = true.
Proof.
  rewrite ltb_leb. intros Hlt%negb_true_iff.
  destruct (leb_total x.1 y.1); congruence.
Qed.

Lemma ltb_leb_trans x y z :
  ltb x.1 y.1 = true → leb y.1 z.1 = true → ltb x.1 z.1 = true.
Proof.
  rewrite !ltb_leb. intros Hxy%negb_true_iff Hyz. apply negb_true_iff.
  destruct (leb z.1 x.1) eqn:Hzx; [|done].
  by rewrite (leb_trans _ _ _ Hyz Hzx) in Hxy.
Qed.

Lemma insert_sorted_last x s :
  last_is_max s →
  last (insert_sorted ltb x s) = later_max (last s) x
  ∧ last_is_max (insert_sorted ltb x s).
Proof.
  induction s as [|y s IH]; intros Hmax.
  - split; [done|]. intros y z [= <-] ->%list_elem_of_singleton.
    destruct (leb_total x.1 x.1); done.
  - simpl. destruct (ltb x.1 y.1) eqn:Hxy.
    + destruct (last (y :: s)) as [z|] eqn:Hz; [|by apply last_None in Hz].
      assert (ltb x.1 z.1 = true) as Hxz.
      { eapply ltb_leb_trans; [done|]. apply Hmax; [done|left]. }
      split.
      * rewrite last_cons_cons, Hz. simpl. by rewrite Hxz.
      * intros y' z'. rewrite last_cons_cons, Hz. intros [= <-].
        intros [->|Hin]%elem_of_cons; [by apply ltb_true|by apply Hmax].
    + apply ltb_false in Hxy as Hyx.
      destruct s as [|y2 s].
      { simpl. rewrite ltb_leb, Hyx. simpl. split; [done|].
        intros y' z' [= <-].
        intros [->|Hin]%elem_of_cons; [done|].
        apply list_elem_of_singleton in Hin as ->.
        destruct (leb_total x.1 x.1); done. }
      destruct IH as [IHlast IHmax].
      { intros y' z' Hz' Hin. apply Hmax; [by rewrite last_cons_cons|by right]. }
      assert (last (y :: insert_sorted ltb x (y2 :: s))
              = last (insert_sorted ltb x (y2 :: s))) as Hlast.
      { simpl. destruct (ltb x.1 y2.1); apply last_cons_cons. }
      rewrite Hlast, IHlast, last_cons_cons. split; [done|].
      intros y' z' Hz' Hin. rewrite Hlast in Hz'.
      apply elem_of_cons in Hin as [->|Hin]; [|by apply IHmax].
      rewrite IHlast in Hz'.
      destruct (last (y2 :: s)) as [z0|] eqn:Hz0; [|by apply last_None in Hz0].
      assert (leb y.1 z0.1 = true) as Hy0.
      { apply Hmax; [by rewrite last_cons_cons|left]. }
      simpl in Hz'. destruct (ltb x.1 z0.1) eqn:Hx0; injection Hz' as <-; [done|].
      eapply leb_trans; [done|]. by apply ltb_false.
Qed.

Lemma sorted_last_scan l :
  last (sorted ltb l) = foldl later_max None l ∧ last_is_max (sorted ltb l).
Proof.
  unfold sorted. induction l as [|x l [IHlast IHmax]] using rev_ind.
  - split; [done|]. by intros y z [=].
  - rewrite !foldl_snoc. destruct (insert_sorted_last x _ IHmax) as [-> ?].
    by rewrite IHlast.
Qed.

(** The outcome of the scan: everything before it has a key that is not
    greater, everything after it a key that is strictly less. *)
Lemma later_max_scan l z :
  foldl later_max None l = Some z →
  ∃ l1 l2, l = l1 ++ z :: l2
           ∧ (∀ y, y ∈ l1 → leb y.1 z.1 = true)
           ∧ (∀ y, y ∈ l2 → ltb y.1 z.1 = true).
Proof.
  revert z. induction l as [|x l IH] using rev_ind; intros z; [done|].
  rewrite foldl_snoc. destruct (foldl later_max None l) as [b|] eqn:Hb; simpl.
  - destruct (IH b eq_refl) as (l1 & l2 & -> & Hl1 & Hl2).
    destruct (ltb x.1 b.1) eqn:Hxb; intros [= <-].
    + exists l1, (l2 ++ [x]). split; [by rewrite <- app_assoc|]. split; [done|].
      intros y [Hin|Hin]%elem_of_app; [by apply Hl2|].
      by apply list_elem_of_singleton in Hin as ->.
    + exists (l1 ++ b :: l2), []. split; [done|]. split; [|by intros y ?%elem_of_nil].
      apply ltb_false in Hxb.
      intros y [Hin|[->|Hin]%elem_of_cons]%elem_of_app; [| done |].
      * eapply leb_trans; [by apply Hl1|done].
      * eapply leb_trans; [apply ltb_true; by apply Hl2|done].
  - intros [= <-]. destruct l as [|? l _] using rev_ind.
    + exists [], []. split; [done|]. split; by intros y ?%elem_of_nil.
    + rewrite foldl_snoc in Hb. unfold later_max in Hb.
      repeat case_match; done.
Qed.
End SortedFacts.

Section SortedLast.
Context {K A : Type} (leb ltb : K → K → bool).

(** [c] is the last of the items of [l] with the greatest key: no item
    before it has a greater key, every item after it has a smaller one. *)
Definition last_maximal (key : A → res K) (l : list A) (c : A) : Prop :=
  ∃ l1 l2 kc,
    l = l1 ++ c :: l2 ∧ key c = Ok kc
    ∧ (∀ x, x ∈ l1 → ∃ kx, key x = Ok kx ∧ leb kx kc = true)
    ∧ (∀ x, x ∈ l2 → ∃ kx, key x = Ok kx ∧ ltb kx kc = true).

Definition decorate (key : A → res K) (x : A) : res (K * A) :=
  res_bind (key x) (λ k, Ok (k, x)).

Implicit Types (key : A → res K) (l : list A) (c : A).

Lemma map_res_decorate key l kl :
  map_res (decorate key) l = Ok kl →
  kl.*2 = l ∧ ∀ y, y ∈ kl → key y.2 = Ok y.1.
Proof.
  revert kl. induction l as [|x l IH]; intros kl; simpl.
  - intros [= <-]. split; [done|]. by intros y ?%elem_of_nil.
  - intros (y & Hy & (ys & Hys & [= <-])%res_bind_Ok)%res_bind_Ok.
    apply res_bind_Ok in Hy as (k & Hk & [= <-]).
    destruct (IH _ Hys) as [Hl Hkeys]. split; [by rewrite fmap_cons, Hl|].
    intros y [->|Hin]%elem_of_cons; [done|by apply Hkeys].
Qed.

Lemma map_res_total {B} (f : A → res B) l :
  (∀ x, x ∈ l → ∃ y, f x = Ok y) → ∃ ys, map_res f l = Ok ys ∧ length ys = length l.
Proof.
  induction l as [|x l IH]; intros Hf; simpl; [by exists []|].
  destruct (Hf x) as [y ->]; [left|]. destruct IH as (ys & -> & Hlen).
  { intros x' Hx'. apply Hf. by right. }
  exists (y :: ys). simpl. by rewrite Hlen.
Qed.

Lemma sorted_last_elem_of key l c : sorted_last ltb key l = Ok c → c ∈ l.
Proof.
  unfold sorted_last. intros (kl & Hkl & (kx & Hkx & [= <-])%res_bind_Ok)%res_bind_Ok.
  apply map_res_decorate in Hkl as [<- _].
  unfold last_item in Hkx. destruct (last _) as [z|] eqn:Hz; [|done].
  injection Hkx as ->. apply last_Some_elem_of in Hz.
  rewrite sorted_Permutation in Hz. by apply list_elem_of_fmap_2.
Qed.

Hypothesis ltb_leb : ∀ x y, ltb x y = negb (leb y x).
Hypothesis leb_total : ∀ x y, leb x y = true ∨ leb y x = true.
Hypothesis leb_trans : ∀ x y z, leb x y = true → leb y z = true → leb x z = true.

Lemma sorted_last_maximal key l c :
  sorted_last ltb key l = Ok c → last_maximal key l c.
Proof.
  unfold sorted_last. intros (kl & Hkl & (kx & Hkx & [= <-])%res_bind_Ok)%res_bind_Ok.
  apply map_res_decorate in Hkl as [<- Hkeys].
  unfold last_item in Hkx. destruct (last _) as [z|] eqn:Hz; [|done].
  injection Hkx as ->.
  destruct (sorted_last_scan leb ltb ltb_leb leb_total leb_trans kl) as [Hscan _].
  rewrite Hscan in Hz.
  apply (later_max_scan leb ltb ltb_leb leb_total leb_trans) in Hz
    as (l1 & l2 & -> & Hl1 & Hl2).
  exists l1.*2, l2.*2, kx.1. split; [by rewrite fmap_app, fmap_cons|].
  split; [apply Hkeys, elem_of_app; right; left|].
  split; intros x (y & -> & Hy)%list_elem_of_fmap; exists y.1.
  - split; [apply Hkeys, elem_of_app; by left|by apply Hl1].
  - split; [apply Hkeys, elem_of_app; right; by right|by apply Hl2].
Qed.

Lemma sorted_last_total key l :
  l ≠ [] → (∀ x, x ∈ l → ∃ k, key x = Ok k) →
  ∃ c, sorted_last ltb key l = Ok c ∧ last_maximal key l c.
Proof.
  intros Hne Hkey.
  destruct (map_res_total (decorate key) l) as (kl & Hkl & Hlen).
  { intros x [k Hk]%Hkey. exists (k, x). unfold decorate. by rewrite Hk. }
  assert (is_Some (last (sorted ltb kl))) as [z Hz].
  { apply last_is_Some. intros Hnil.
    pose proof (sorted_Permutation ltb kl) as Hperm. rewrite Hnil in Hperm.
    apply Permutation_nil_l in Hperm. subst kl. by destruct l. }
  assert (sorted_last ltb key l = Ok z.2) as Hc.
  { unfold sorted_last. fold (decorate key). rewrite Hkl. simpl.
    unfold last_item. by rewrite Hz. }
  exists z.2. split; [done|]. by apply sorted_last_maximal.
Qed.
End SortedLast.

(** ** UCTSelectChild *)

(** What is asked of floats: [<=] is a total preorder (there is no NaN
    among the keys), and the argument of [sqrt] in the key is not negative
    when both visit counts are at least one. *)
Class PyFloatLaws `{PyFloat} : Prop := {
  fleb_total : ∀ x y, fleb x y = true ∨ fleb y x = true;
  fleb_trans : ∀ x y z, fleb x y = true → fleb y z = true → fleb x z = true;
  sqrt_domain : ∀ v c : Z,
    (1 <= v)%Z → (1 <= c)%Z →
    fltb (fdiv (fmul (of_Q 2) (flog (of_Q (inject_Z v)))) (of_Q (inject_Z c)))
         (of_Q 0) = false;
}.

Section SelectChild.
Context `{BoardApi} `{PyFloat}.

(** The value of [c.wins/c.visits + sqrt(2*log(self.visits)/c.visits)] *)
Definition uct_value (self_visits : Z) (c : Node) : float :=
  fadd (fdiv (of_Q (wins c)) (of_Q (inject_Z (visits c))))
       (fsqrt (fdiv (fmul (of_Q 2) (flog (of_Q (inject_Z self_visits))))
                    (of_Q (inject_Z (visits c))))).

Lemma uct_key_value `{!PyFloatLaws} v c :
  (1 <= v)%Z → (1 <= visits c)%Z → uct_key v c = Ok (uct_value v c).
Proof.
  intros Hv Hc. unfold uct_key.
  rewrite (proj2 (Z.eqb_neq _ _)) by lia.
  rewrite (proj2 (Z.leb_gt _ _)) by lia.
  by rewrite sqrt_domain.
Qed.

Lemma UCTSelectChild_Ok self w c w' :
  UCTSelectChild self w = Ok (c, w') →
  ∃ n, nodes w !! self = Some n ∧ w' = w
       ∧ sorted_last fltb (key_of (nodes w) (uct_key (visits n))) (childNodes n)
         = Ok c.
Proof.
  unfold UCTSelectChild. intros (n & w1 & [Hn ->]%get_node_Ok & Hs)%bind_Ok.
  apply lift_Ok in Hs as [Hs ->]. eauto.
Qed.

Lemma UCTSelectChild_elem_of self w c w' n :
  UCTSelectChild self w = Ok (c, w') → nodes w !! self = Some n →
  w' = w ∧ c ∈ childNodes n.
Proof.
  intros (n' & Hn' & -> & Hs)%UCTSelectChild_Ok Hn.
  assert (n' = n) as -> by congruence.
  split; [done|]. by eapply sorted_last_elem_of.
Qed.
End SelectChild.

(** [UCTSelectChild] on a visited node with children that have all been
    visited. *)
Lemma UCTSelectChild_total `{BoardApi} `{PyFloat} `{!PyFloatLaws}
    (w : World) (self : nat) (n : Node) :
  nodes w !! self = Some n →
  childNodes n ≠ [] →
  (1 <= visits n)%Z →
  (∀ c, c ∈ childNodes n → ∃ cn, nodes w !! c = Some cn ∧ (1 <= visits cn)%Z) →
  ∃ c l1 l2 cn,
    UCTSelectChild self w = Ok (c, w)
    ∧ childNodes n = l1 ++ c :: l2
    ∧ nodes w !! c = Some cn
    ∧ (∀ x, x ∈ l1 → ∃ xn, nodes w !! x = Some xn
         ∧ fleb (uct_value (visits n) xn) (uct_value (visits n) cn) = true)
    ∧ (∀ x, x ∈ l2 → ∃ xn, nodes w !! x = Some xn
         ∧ fltb (uct_value (visits n) xn) (uct_value (visits n) cn) = true).
Proof.
  intros Hn Hne Hv Hchildren.
  assert (∀ x, x ∈ childNodes n → ∃ xn, nodes w !! x = Some xn
            ∧ key_of (nodes w) (uct_key (visits n)) x = Ok (uct_value (visits n) xn))
    as Hkeys.
  { intros x (xn & Hx & Hxv)%Hchildren. exists xn. split; [done|].
    unfold key_of. rewrite Hx. by apply uct_key_value. }
  destruct (sorted_last_total fleb fltb (λ x y, eq_refl) fleb_total fleb_trans
              (key_of (nodes w) (uct_key (visits n))) (childNodes n) Hne)
    as (c & Hc & l1 & l2 & kc & Hl & Hkc & Hl1 & Hl2).
  { intros x (xn & _ & Hx)%Hkeys. eauto. }
  destruct (Hkeys c) as (cn & Hcn & Hcv); [rewrite Hl; set_solver|].
  assert (kc = uct_value (visits n) cn) as -> by congruence.
  exists c, l1, l2, cn. split.
  { unfold UCTSelectChild, bind. rewrite (get_node_lookup _ _ _ Hn).
    unfold lift. by rewrite Hc. }
  split; [done|]. split; [done|].
  split; intros x Hx.
  - destruct (Hl1 x Hx) as (kx & Hkx & Hle).
    destruct (Hkeys x) as (xn & Hxn & Hxv); [rewrite Hl; set_solver|].
    exists xn. split; [done|]. congruence.
  - destruct (Hl2 x Hx) as (kx & Hkx & Hlt).
    destruct (Hkeys x) as (xn & Hxn & Hxv); [rewrite Hl; set_solver|].
    exists xn. split; [done|]. congruence.
Qed.


(** The toy game lists no legal move twice. *)
Lemma Toy_legal_moves_NoDup (b : @Board Toy.toy_board) : NoDup (legal_moves b).
Proof.
  simpl. destruct (Nat.ltb (length b) 3); [|apply NoDup_nil_2].
  apply NoDup_cons. split; [|apply NoDup_singleton].
  rewrite list_elem_of_singleton. discriminate.
Qed.

(** The rationals in the place of floats satisfy what is asked of floats. *)
Global Instance toy_float_laws : @PyFloatLaws Toy.toy_float.
Proof.
  split; simpl.
  - intros x y. rewrite !Qle_bool_iff.
    destruct (Qlt_le_dec x y) as [Hlt|Hle]; [left; by apply Qlt_le_weak|by right].
  - intros x y z. rewrite !Qle_bool_iff. apply Qle_trans.
  - intros v c Hv Hc. unfold fltb. simpl. apply negb_false_iff, Qle_bool_iff.
    apply Qle_shift_div_l.
    + change 0%Q with (inject_Z 0). rewrite <- Zlt_Qlt. lia.
    + rewrite Qmult_0_l.
      apply Qmult_le_0_compat; [done|].
      change 1%Q with (inject_Z 1). unfold Qminus.
      rewrite <- inject_Z_opp, <- inject_Z_plus.
      change 0%Q with (inject_Z 0). rewrite <- Zle_Qle. lia.
Qed.

(** A store with a root that was visited three times and its two children. *)
Definition toy_tree_world : World :=
  mkWorld
    [mkNode None None [1; 2]%nat (3 # 2)%Q 3%Z [] true;
     mkNode (Some e2e4) (Some 0%nat) [] 1%Q 2%Z [e2e4; e7e5] false;
     mkNode (Some e7e5) (Some 0%nat) [] (1 # 2)%Q 1%Z [e2e4; e7e5] false]
    [[]] [].


(** ** The tree during a search *)

(** The fields of a node that [Update] leaves alone. *)
Record Skel : Type := mkSkel {
  sk_move : option Move;
  sk_parent : option nat;
  sk_children : list nat;
  sk_untried : list Move;
}.

Definition skel (n : Node) : Skel :=
  mkSkel (move n) (parentNode n) (childNodes n) (untriedMoves n).

(** The moves of the children of a node, in the order of [childNodes]. *)
Definition child_moves (sks : list Skel) (s : Skel) : list Move :=
  omap (λ c, sks !! c ≫= sk_move) (sk_children s).

Section Shape.
Context `{BoardApi}.
Variables (root : nat) (rb : Board).

(** The shape of the tree under the node [root], which was made for the
    board [rb].  [cb] lists, for every node, the board it was made for. *)
Record shape (cb : list Board) (sks : list Skel) : Prop := {
  shape_length : length cb = length sks;
  shape_root :
    ∃ s, sks !! root = Some s ∧ sk_parent s = None ∧ cb !! root = Some rb;
  shape_parent : ∀ i s,
    (root < i)%nat → sks !! i = Some s →
    ∃ p m bp, sk_parent s = Some p ∧ (root ≤ p < i)%nat ∧ sk_move s = Some m
              ∧ cb !! p = Some bp ∧ cb !! i = Some (push bp m);
  shape_children : ∀ i s c,
    (root ≤ i)%nat → sks !! i = Some s → c ∈ sk_children s →
    (i < c)%nat ∧ ∃ cs, sks !! c = Some cs ∧ sk_parent cs = Some i;
  shape_moves : ∀ i s b,
    (root ≤ i)%nat → sks !! i = Some s → cb !! i = Some b →
    sk_untried s ++ child_moves sks s ≡ₚ legal_moves b;
}.

Lemma child_moves_ext sks sks' s s' :
  sk_children s' = sk_children s →
  (∀ c, c ∈ sk_children s → sks' !! c ≫= sk_move = sks !! c ≫= sk_move) →
  child_moves sks' s' = child_moves sks s.
Proof.
  unfold child_moves. intros ->. generalize (sk_children s).
  intros l Hl. induction l as [|c l IH]; [done|].
  change (c :: l) with ([c] ++ l). rewrite !omap_app.
  rewrite IH by (intros c' Hc'; apply Hl; by right).
  f_equal. simpl. by rewrite Hl by left.
Qed.

Lemma child_moves_snoc sks s s' c m :
  sk_children s' = sk_children s ++ [c] →
  sks !! c ≫= sk_move = Some m →
  child_moves sks s' = child_moves sks s ++ [m].
Proof.
  unfold child_moves. intros -> Hc. rewrite omap_app. simpl. by rewrite Hc.
Qed.

(** The tree right after [Node(state=rootstate)]. *)
Lemma shape_init (sks0 : list Skel) :
  root = length sks0 →
  shape (replicate (length sks0) rb ++ [rb])
        (sks0 ++ [mkSkel None None [] (legal_moves rb)]).
Proof.
  intros ->. split.
  - by rewrite !length_app, length_replicate.
  - eexists. split; [by apply list_lookup_middle|]. split; [done|].
    apply list_lookup_middle. by rewrite length_replicate.
  - intros i s Hi Hs. apply lookup_lt_Some in Hs.
    rewrite length_app in Hs. simpl in Hs. lia.
  - intros i s c Hi Hs Hc.
    assert (i = length sks0) as ->.
    { apply lookup_lt_Some in Hs. rewrite length_app in Hs. simpl in Hs. lia. }
    rewrite list_lookup_middle in Hs by done. injection Hs as <-.
    by apply elem_of_nil in Hc.
  - intros i s b Hi Hs Hb.
    assert (i = length sks0) as ->.
    { apply lookup_lt_Some in Hs. rewrite length_app in Hs. simpl in Hs. lia. }
    rewrite list_lookup_middle in Hs by done. injection Hs as <-.
    rewrite list_lookup_middle in Hb by by rewrite length_replicate.
    injection Hb as <-. unfold child_moves. simpl. by rewrite app_nil_r.
Qed.

(** The tree after [AddChild]: a new last node for the board [push b m],
    the move [m] taken from the untried moves of [node] and the new node
    put at the end of its children. *)
Lemma shape_expand cb sks node s b m untried' :
  shape cb sks → (root ≤ node)%nat →
  sks !! node = Some s → cb !! node = Some b →
  sk_untried s ≡ₚ m :: untried' →
  shape (cb ++ [push b m])
    (<[node := mkSkel (sk_move s) (sk_parent s)
                 (sk_children s ++ [length sks]) untried']>
       (sks ++ [mkSkel (Some m) (Some node) [] (legal_moves (push b m))])).
Proof.
  intros [Hlen Hroot Hparent Hchildren Hmoves] Hnode Hs Hb Huntried.
  set (new := length sks).
  set (s' := mkSkel (sk_move s) (sk_parent s) (sk_children s ++ [new]) untried').
  set (snew := mkSkel (Some m) (Some node) [] (legal_moves (push b m))).
  set (sks' := <[node := s']> (sks ++ [snew])).
  assert (node < new)%nat as Hlt by by apply lookup_lt_Some in Hs.
  assert (sks' !! node = Some s') as Hat_node.
  { apply list_lookup_insert_eq. rewrite length_app. simpl. lia. }
  assert (sks' !! new = Some snew) as Hat_new.
  { unfold sks'. rewrite list_lookup_insert_ne by lia.
    by apply list_lookup_middle. }
  assert (∀ j, j ≠ node → (j < new)%nat → sks' !! j = sks !! j) as Hat_old.
  { intros j Hj Hjn. unfold sks'. rewrite list_lookup_insert_ne by done.
    by apply lookup_app_l. }
  assert (∀ j sj, sks' !! j = Some sj →
            (j = new ∧ sj = snew) ∨ (j = node ∧ sj = s')
            ∨ (j ≠ node ∧ (j < new)%nat ∧ sks !! j = Some sj)) as Hcases.
  { intros j sj Hj.
    destruct (decide (j = node)) as [->|Hjn]; [right; left; split; congruence|].
    assert (j < length sks')%nat as Hjlen by by apply lookup_lt_Some in Hj.
    unfold sks' in Hjlen. rewrite length_insert, length_app in Hjlen.
    simpl in Hjlen. fold new in Hjlen.
    destruct (decide (j = new)) as [->|Hjnew]; [left; split; congruence|].
    right; right. rewrite Hat_old in Hj by lia. repeat split; [done|lia|done]. }
  assert (∀ j, (j < new)%nat → sks' !! j ≫= sk_move = sks !! j ≫= sk_move)
    as Hmove.
  { intros j Hj. destruct (decide (j = node)) as [->|Hjn].
    - by rewrite Hat_node, Hs.
    - by rewrite Hat_old. }
  assert (∀ j, (j < new)%nat → (cb ++ [push b m]) !! j = cb !! j) as Hcb_old.
  { intros j Hj. apply lookup_app_l. unfold new in Hj. lia. }
  assert ((cb ++ [push b m]) !! new = Some (push b m)) as Hcb_new.
  { apply list_lookup_middle. by rewrite Hlen. }
  assert (∀ j sj c, (root ≤ j)%nat → sks !! j = Some sj → c ∈ sk_children sj →
            (c < new)%nat) as Hchild_lt.
  { intros j sj c Hj Hsj Hc.
    destruct (Hchildren j sj c Hj Hsj Hc) as (_ & cs & Hcs & _).
    by apply lookup_lt_Some in Hcs. }
  split.
  - unfold sks'. rewrite length_insert, !length_app. simpl. lia.
  - destruct Hroot as (sr & Hsr & Hpr & Hcr).
    destruct (decide (root = node)) as [->|Hrn].
    + exists s'. split; [done|]. split; [simpl; congruence|].
      by rewrite Hcb_old by done.
    + exists sr. assert (root < new)%nat by lia.
      split; [by rewrite Hat_old by done|]. split; [done|].
      by rewrite Hcb_old by done.
  - intros i si Hi Hsi.
    destruct (Hcases i si Hsi) as [[-> ->]|[[-> ->]|(Hin & Hilt & Hsi')]].
    + exists node, m, b. simpl. rewrite Hcb_old by done.
      repeat split; [lia|lia|done|done].
    + destruct (Hparent node s Hi Hs) as (p & m' & bp & Hp & Hrange & Hm' & Hbp & Hbi).
      exists p, m', bp. simpl. rewrite !Hcb_old by lia. done.
    + destruct (Hparent i si Hi Hsi') as (p & m' & bp & Hp & Hrange & Hm' & Hbp & Hbi).
      exists p, m', bp. rewrite !Hcb_old by lia. done.
  - intros i si c Hi Hsi Hc.
    destruct (Hcases i si Hsi) as [[-> ->]|[[-> ->]|(Hin & Hilt & Hsi')]].
    + by apply elem_of_nil in Hc.
    + simpl in Hc. apply elem_of_app in Hc as [Hc|Hc].
      * destruct (Hchildren node s c Hi Hs Hc) as (Hnc & cs & Hcs & Hpc).
        split; [done|]. exists cs. split; [|done].
        rewrite Hat_old; [done|lia|]. by apply lookup_lt_Some in Hcs.
      * apply list_elem_of_singleton in Hc as ->. split; [done|].
        exists snew. by split.
    + destruct (Hchildren i si c Hi Hsi' Hc) as (Hic & cs & Hcs & Hpc).
      split; [done|]. destruct (decide (c = node)) as [->|Hcn].
      * exists s'. split; [done|]. simpl. congruence.
      * exists cs. split; [|done]. rewrite Hat_old; [done|done|].
        by apply lookup_lt_Some in Hcs.
  - intros i si bi Hi Hsi Hbi.
    destruct (Hcases i si Hsi) as [[-> ->]|[[-> ->]|(Hin & Hilt & Hsi')]].
    + rewrite Hcb_new in Hbi. injection Hbi as <-.
      unfold child_moves. simpl. by rewrite app_nil_r.
    + rewrite Hcb_old in Hbi by done.
      assert (bi = b) as -> by congruence.
      rewrite (child_moves_snoc sks' s s' new m); [|done|by rewrite Hat_new].
      rewrite (child_moves_ext sks sks' s s); [|done|].
      * simpl. rewrite <- (Hmoves node s b Hi Hs Hb), Huntried.
        rewrite app_assoc. simpl. symmetry. apply Permutation_cons_append.
      * intros c Hc. apply Hmove. apply (Hchild_lt node s c Hi Hs Hc).
    + rewrite Hcb_old in Hbi by done.
      rewrite (child_moves_ext sks sks' si si); [by apply (Hmoves i si bi)|done|].
      intros c Hc. apply Hmove. apply (Hchild_lt i si c Hi Hsi' Hc).
Qed.
End Shape.

(** ** The steps of the store, inverted *)

Section StoreFacts.
Context `{BoardApi}.

Lemma get_board_Ok b w v w' :
  get_board b w = Ok (v, w') ↔ boards w !! b = Some v ∧ w' = w.
Proof.
  unfold get_board. destruct (boards w !! b) as [x|]; split.
  - by intros [= -> ->].
  - by intros [[= ->] ->].
  - done.
  - by intros [? _].
Qed.

Lemma board_copy_Ok b w l w' :
  board_copy b w = Ok (l, w') ↔
  ∃ v, boards w !! b = Some v ∧ l = length (boards w)
       ∧ w' = mkWorld (nodes w) (boards w ++ [v]) (rng w).
Proof.
  unfold board_copy. destruct (boards w !! b) as [x|]; split.
  - intros [= <- <-]. eauto.
  - by intros (v & [= <-] & -> & ->).
  - done.
  - by intros (v & ? & _).
Qed.

Lemma board_push_Ok b m w u w' :
  board_push b m w = Ok (u, w') ↔
  ∃ v, boards w !! b = Some v
       ∧ w' = mkWorld (nodes w) (<[b := push v m]> (boards w)) (rng w).
Proof.
  unfold board_push. destruct (boards w !! b) as [x|]; split.
  - intros [= <- <-]. eauto.
  - intros (v & [= <-] & ->). by destruct u.
  - done.
  - by intros (v & ? & _).
Qed.

Lemma random_choice_Ok {A} (l : list A) w x w' :
  random_choice l w = Ok (x, w') →
  x ∈ l ∧ w' = mkWorld (nodes w) (boards w) (tl (rng w)).
Proof.
  unfold random_choice. destruct (l !! _) as [y|] eqn:Hy; [|done].
  intros [= <- <-]. split; [|done]. by eapply list_elem_of_lookup_2.
Qed.

Lemma random_choice_total {A} (l : list A) w :
  l ≠ [] → ∃ x, random_choice l w
                = Ok (x, mkWorld (nodes w) (boards w) (tl (rng w))) ∧ x ∈ l.
Proof.
  intros Hl. unfold random_choice.
  destruct (lookup_lt_is_Some_2 l (hd 0%nat (rng w) mod length l)) as [x Hx].
  { apply Nat.mod_upper_bound. by destruct l. }
  rewrite Hx. exists x. split; [done|]. by eapply list_elem_of_lookup_2.
Qed.

Lemma list_remove_Permutation (m : Move) l l' :
  list_remove m l = Ok l' → l ≡ₚ m :: l'.
Proof.
  revert l'. induction l as [|y l IH]; intros l'; simpl; [done|].
  destruct (decide (m = y)) as [->|Hne]; [by intros [= ->]|].
  intros (r & Hr & [= <-])%res_bind_Ok. rewrite (IH r Hr). apply Permutation_swap.
Qed.

Lemma list_remove_total (m : Move) l :
  m ∈ l → ∃ l', list_remove m l = Ok l'.
Proof.
  induction l as [|y l IH]; [by intros ?%elem_of_nil|].
  intros Hin. simpl. destruct (decide (m = y)) as [->|Hne]; [eauto|].
  apply elem_of_cons in Hin as [?|Hin]; [done|].
  destruct (IH Hin) as [l' ->]. simpl. eauto.
Qed.

Lemma Node_init_Ok m parent state w id w' :
  Node_init m parent state w = Ok (id, w') ↔
  ∃ b, boards w !! state = Some b ∧ id = length (nodes w)
       ∧ w' = mkWorld
                (nodes w ++ [mkNode m parent [] 0%Q 0%Z (legal_moves b) (turn b)])
                (boards w) (rng w).
Proof.
  unfold Node_init. rewrite bind_Ok. split.
  - intros (b & w1 & [Hb ->]%get_board_Ok & [= <- <-]). eauto.
  - intros (b & Hb & -> & ->). exists b, w. split; [by apply get_board_Ok|done].
Qed.

(** [AddChild] on a node that is in the store *)
Lemma AddChild_Ok self m s w id w' me :
  nodes w !! self = Some me →
  AddChild self m s w = Ok (id, w') →
  ∃ b untried',
    boards w !! s = Some b
    ∧ list_remove m (untriedMoves me) = Ok untried'
    ∧ id = length (nodes w)
    ∧ w' = mkWorld
             (<[self := mkNode (move me) (parentNode me) (childNodes me ++ [id])
                          (wins me) (visits me) untried' (playerJustMoved me)]>
                (nodes w ++ [mkNode (Some m) (Some self) [] 0%Q 0%Z
                               (legal_moves b) (turn b)]))
             (boards w) (rng w).
Proof.
  intros Hme. unfold AddChild.
  intros (n & w1 & (b & Hb & -> & ->)%Node_init_Ok & Hrest)%bind_Ok.
  apply bind_Ok in Hrest as (me1 & w2 & [Hme1 ->]%get_node_Ok & Hrest).
  simpl in Hme1. rewrite lookup_app_l in Hme1 by by eapply lookup_lt_Some.
  assert (me1 = me) as -> by congruence.
  apply bind_Ok in Hrest as (untried' & w3 & [Hrem ->]%lift_Ok & Hrest).
  apply bind_Ok in Hrest as (u1 & w4 & [_ ->]%set_node_Ok & Hrest).
  apply bind_Ok in Hrest as (me2 & w5 & [Hme2 ->]%get_node_Ok & Hrest).
  simpl in Hme2. rewrite list_lookup_insert_eq in Hme2
    by (rewrite length_app; apply lookup_lt_Some in Hme; simpl; lia).
  injection Hme2 as <-.
  apply bind_Ok in Hrest as (u2 & w6 & [_ ->]%set_node_Ok & [= <- <-]).
  exists b, untried'. simpl. by rewrite list_insert_insert_eq.
Qed.

Lemma AddChild_total self m s w me b :
  nodes w !! self = Some me → boards w !! s = Some b → m ∈ untriedMoves me →
  ∃ id w', AddChild self m s w = Ok (id, w').
Proof.
  intros Hme Hb Hm. destruct (list_remove_total m _ Hm) as [untried' Hrem].
  assert (self < length (nodes w))%nat as Hlt by by eapply lookup_lt_Some.
  unfold AddChild, Node_init, bind, get_board, new_node, get_node, set_node, lift.
  rewrite Hb. simpl. rewrite lookup_app_l by done. rewrite Hme, Hrem. simpl.
  rewrite lookup_app_l by done. rewrite Hme. simpl.
  rewrite list_lookup_insert_eq by (rewrite length_app; simpl; lia).
  simpl. rewrite list_lookup_insert_eq by (rewrite length_app; simpl; lia).
  eauto.
Qed.
End StoreFacts.

(** The visit statistics of a node, which [AddChild] leaves alone. *)
Definition stat (n : Node) : Q * Z := (wins n, visits n).

(** The statistics during a search from the node [root]: the root has been
    visited [k] times; every node has a score between minus its visits and
    its visits; every node under the root has been visited, except the node
    [pending] that the running iteration has just made. *)
Definition stats_ok (root : nat) (k : nat) (pending : option nat)
    (sts : list (Q * Z)) : Prop :=
  (∃ st, sts !! root = Some st ∧ st.2 = Z.of_nat k)
  ∧ ∀ i st, (root ≤ i)%nat → sts !! i = Some st →
      (- inject_Z st.2 <= st.1)%Q ∧ (st.1 <= inject_Z st.2)%Q ∧ (0 <= st.2)%Z
      ∧ ((root < i)%nat → pending ≠ Some i → (1 <= st.2)%Z).

Section StatsFacts.
Context `{BoardApi}.

Lemma skel_Update_node r n : skel (Update_node r n) = skel n.
Proof. done. Qed.

Lemma visits_Update_node r n : visits (Update_node r n) = (visits n + 1)%Z.
Proof. done. Qed.

(** One call of [Update] moves the score by one of -1, 0, 1/2 and 1. *)
Lemma wins_Update_node r n :
  wins (Update_node r n) = (wins n + 1)%Q
  ∨ wins (Update_node r n) = (wins n - 1)%Q
  ∨ wins (Update_node r n) = (wins n + (1 # 2))%Q
  ∨ wins (Update_node r n) = wins n.
Proof.
  unfold Update_node. simpl.
  destruct (String.eqb r "1-0"); [by left|].
  destruct (String.eqb r "0-1"); [right; by left|].
  destruct (String.eqb r "1/2-1/2"); [right; right; by left|].
  by right; right; right.
Qed.

Lemma Update_node_bounds r n :
  (- inject_Z (visits n) <= wins n)%Q → (wins n <= inject_Z (visits n))%Q →
  (- inject_Z (visits (Update_node r n)) <= wins (Update_node r n))%Q
  ∧ (wins (Update_node r n) <= inject_Z (visits (Update_node r n)))%Q.
Proof.
  intros Hlo Hhi. rewrite visits_Update_node, inject_Z_plus.
  change (inject_Z 1) with 1%Q.
  destruct (wins_Update_node r n) as [Hw|[Hw|[Hw|Hw]]]; rewrite Hw; split; lra.
Qed.

Lemma stats_ok_init (sts0 : list (Q * Z)) :
  stats_ok (length sts0) 0 None (sts0 ++ [(0%Q, 0%Z)]).
Proof.
  split.
  - exists (0%Q, 0%Z). split; [by apply list_lookup_middle|done].
  - intros i st Hi Hst.
    assert (i = length sts0) as ->.
    { apply lookup_lt_Some in Hst. rewrite length_app in Hst. simpl in Hst. lia. }
    rewrite list_lookup_middle in Hst by done. injection Hst as <-.
    simpl. repeat split; try done. lia.
Qed.

Lemma stats_ok_new root k sts :
  (root < length sts)%nat →
  stats_ok root k None sts →
  stats_ok root k (Some (length sts)) (sts ++ [(0%Q, 0%Z)]).
Proof.
  intros Hroot [(st & Hst & Hk) Hall]. split.
  - exists st. split; [|done]. by rewrite lookup_app_l.
  - intros i sti Hi Hsti.
    destruct (decide (i = length sts)) as [->|Hne].
    + rewrite list_lookup_middle in Hsti by done. injection Hsti as <-.
      simpl. repeat split; done.
    + assert (i < length sts)%nat.
      { apply lookup_lt_Some in Hsti. rewrite length_app in Hsti.
        simpl in Hsti. lia. }
      rewrite lookup_app_l in Hsti by done.
      destruct (Hall i sti Hi Hsti) as (? & ? & ? & Hv).
      repeat split; try done. intros ? _. by apply Hv.
Qed.
End StatsFacts.

(** ** The steps of one iteration *)

(** A way to take the move to expand: it is one of the untried moves of the
    node, and taking it changes neither a node nor a board. *)
Definition picks_untried `{BoardApi} (pick : nat → M Move) : Prop :=
  ∀ node w m w', pick node w = Ok (m, w') →
    nodes w' = nodes w ∧ boards w' = boards w
    ∧ ∃ n, nodes w !! node = Some n ∧ m ∈ untriedMoves n.

(** A rollout policy changes neither a node nor a board. *)
Definition keeps_store `{BoardApi} (policy : nat → M Move) : Prop :=
  ∀ state w m w', policy state w = Ok (m, w') →
    nodes w' = nodes w ∧ boards w' = boards w.

Section SearchFacts.
Context `{BoardApi} `{PyFloat}.
Variables (pick_move policy : nat → M Move).
Hypothesis pick_ok : picks_untried pick_move.
Hypothesis policy_ok : keeps_store policy.
Variables (root : nat) (rb : Board).

Lemma select_loop_unfold fuel node state :
  select_loop fuel node state
  = (n <- get_node node ;;
     if is_nil (untriedMoves n) && negb (is_nil (childNodes n)) then
       match fuel with
       | O => raise OutOfFuel
       | S fuel' =>
           node' <- UCTSelectChild node ;;
           push_node_move state node' ;;
           select_loop fuel' node' state
       end
     else ret node).
Proof. by destruct fuel. Qed.

Lemma simulate_unfold fuel state :
  simulate policy fuel state
  = (b <- get_board state ;;
     if is_game_over b then ret tt
     else
       match fuel with
       | O => raise OutOfFuel
       | S fuel' =>
           m <- policy state ;;
           board_push state m ;;
           simulate policy fuel' state
       end).
Proof. by destruct fuel. Qed.

Lemma lookup_skel (ns : list Node) i n :
  ns !! i = Some n → (skel <$> ns) !! i = Some (skel n).
Proof. intros Hn. by rewrite list_lookup_fmap, Hn. Qed.

(** Selection walks down the tree without changing it; the board [state]
    ends up as the board for which the selected node was made. *)
Lemma select_loop_spec cb ns fuel cur state w node w' b :
  shape root rb cb (skel <$> ns) → nodes w = ns →
  (root ≤ cur)%nat → cb !! cur = Some b → boards w !! state = Some b →
  select_loop fuel cur state w = Ok (node, w') →
  nodes w' = ns ∧ rng w' = rng w ∧ (root ≤ node)%nat
  ∧ is_Some (ns !! node)
  ∧ ∃ b', cb !! node = Some b' ∧ boards w' = <[state := b']> (boards w).
Proof.
  intros Hshape. revert cur w b.
  induction fuel as [|fuel IH]; intros cur w b Hns Hcur Hcb Hstate;
    rewrite select_loop_unfold;
    intros (n & w1 & [Hn ->]%get_node_Ok & Hrest)%bind_Ok;
    rewrite Hns in Hn.
  - destruct (_ && _); [done|]. apply ret_Ok in Hrest as [-> ->].
    repeat split; [done|done|eauto|]. exists b. split; [done|].
    by rewrite list_insert_id.
  - destruct (_ && _).
    + apply bind_Ok in Hrest as (c & w1 & Hsel & Hrest).
      destruct (UCTSelectChild_elem_of cur w c w1 n) as [-> Hc];
        [done|by rewrite Hns|].
      destruct (shape_children _ _ _ _ Hshape cur (skel n) c Hcur
                  (lookup_skel _ _ _ Hn) Hc) as (Hlt & cs & Hcs & Hpc).
      apply bind_Ok in Hrest as (u & w2 & Hpush & Hrest).
      unfold push_node_move in Hpush.
      apply bind_Ok in Hpush as (cn & w3 & [Hcn ->]%get_node_Ok & Hpush).
      rewrite Hns in Hcn.
      rewrite (lookup_skel _ _ _ Hcn) in Hcs. injection Hcs as <-.
      destruct (shape_parent _ _ _ _ Hshape c (skel cn)) as
        (p & m & bp & Hp & Hrange & Hm & Hbp & Hbc);
        [lia|by apply lookup_skel|].
      simpl in Hp, Hm, Hpc. rewrite Hm in Hpush.
      assert (p = cur) as -> by congruence.
      assert (bp = b) as -> by congruence.
      apply board_push_Ok in Hpush as (v & Hv & ->).
      assert (v = b) as -> by congruence.
      assert (<[state := push b m]> (boards w) !! state = Some (push b m))
        as Hpushed.
      { apply list_lookup_insert_eq. by eapply lookup_lt_Some. }
      eapply (IH c _ (push b m)) in Hrest
        as (Hnodes & Hrng & Hroot & Hsome & b' & Hb' & Hboards);
        [|done|lia|done|exact Hpushed].
      simpl in *. repeat split; [done|done|done|done|].
      exists b'. split; [done|]. by rewrite Hboards, list_insert_insert_eq.
    + apply ret_Ok in Hrest as [-> ->].
      repeat split; [done|done|eauto|]. exists b. split; [done|].
      by rewrite list_insert_id.
Qed.

(** Expansion adds at most one node, the last of the arena, made for the
    board [state] after the picked move. *)
Lemma expand_spec cb k node state w node' w' b :
  shape root rb cb (skel <$> nodes w) →
  stats_ok root k None (stat <$> nodes w) →
  (root ≤ node)%nat → cb !! node = Some b → boards w !! state = Some b →
  expand pick_move node state w = Ok (node', w') →
  ∃ cb' b' pending,
    shape root rb cb' (skel <$> nodes w')
    ∧ stats_ok root k pending (stat <$> nodes w')
    ∧ (pending = None ∨ pending = Some node')
    ∧ (root ≤ node')%nat ∧ is_Some (nodes w' !! node')
    ∧ boards w' = <[state := b']> (boards w)
    ∧ (length (nodes w) ≤ length (nodes w') ≤ S (length (nodes w)))%nat.
Proof.
  intros Hshape Hstats Hnode Hcb Hstate. unfold expand.
  intros (n & w1 & [Hn ->]%get_node_Ok & Hrest)%bind_Ok.
  destruct (negb _).
  - apply bind_Ok in Hrest as (m & w1 & Hpick & Hrest).
    destruct (pick_ok _ _ _ _ Hpick) as (Hns1 & Hbs1 & n' & Hn' & Hm).
    assert (n' = n) as -> by congruence.
    apply bind_Ok in Hrest as (u & w2 & (v & Hv & ->)%board_push_Ok & Hadd).
    rewrite Hbs1 in Hv. assert (v = b) as -> by congruence.
    eapply (AddChild_Ok node m state _ node' w' n) in Hadd
      as (b2 & untried' & Hb2 & Hrem & -> & ->); [|simpl; congruence].
    simpl in *. rewrite Hbs1 in Hb2.
    rewrite list_lookup_insert_eq in Hb2 by by eapply lookup_lt_Some.
    injection Hb2 as <-. rewrite Hns1, Hbs1.
    assert (node < length (nodes w))%nat as Hlt by by eapply lookup_lt_Some.
    exists (cb ++ [push b m]), (push b m), (Some (length (nodes w))).
    split; [|split; [|split; [by right|split; [lia|split; [|split]]]]].
    + rewrite list_fmap_insert, fmap_app. simpl.
      pose proof (shape_expand root rb cb (skel <$> nodes w) node (skel n) b m
                    untried' Hshape Hnode (lookup_skel _ _ _ Hn) Hcb) as Hnew.
      rewrite length_fmap in Hnew. apply Hnew.
      by apply list_remove_Permutation.
    + rewrite list_fmap_insert, fmap_app. simpl.
      rewrite list_insert_id.
      * rewrite <- (length_fmap stat (nodes w)). apply stats_ok_new; [|done].
        rewrite length_fmap. lia.
      * rewrite lookup_app_l by (rewrite length_fmap; lia).
        by rewrite list_lookup_fmap, Hn.
    + apply lookup_lt_is_Some. rewrite length_insert, length_app. simpl. lia.
    + done.
    + rewrite length_insert, length_app. simpl. lia.
  - apply ret_Ok in Hrest as [-> ->]. exists cb, b, None.
    split; [done|]. split; [done|]. split; [by left|]. split; [done|].
    split; [eauto|]. split; [by rewrite list_insert_id|lia].
Qed.

(** A simulation changes the board [state] and nothing else. *)
Lemma simulate_spec fuel state w u w' :
  simulate policy fuel state w = Ok (u, w') →
  nodes w' = nodes w ∧ ∃ b', boards w' = <[state := b']> (boards w).
Proof.
  revert w. induction fuel as [|fuel IH]; intros w;
    rewrite simulate_unfold;
    intros (b & w1 & [Hb ->]%get_board_Ok & Hrest)%bind_Ok.
  - destruct (is_game_over b); [|done]. apply ret_Ok in Hrest as [_ ->].
    split; [done|]. exists b. by rewrite list_insert_id.
  - destruct (is_game_over b).
    + apply ret_Ok in Hrest as [_ ->].
      split; [done|]. exists b. by rewrite list_insert_id.
    + apply bind_Ok in Hrest as (m & w1 & Hpol & Hrest).
      destruct (policy_ok _ _ _ _ Hpol) as [Hns1 Hbs1].
      apply bind_Ok in Hrest as (u1 & w2 & (v & Hv & ->)%board_push_Ok & Hrest).
      apply IH in Hrest as (Hns & b' & Hbs). simpl in *.
      split; [congruence|]. exists b'.
      by rewrite Hbs, Hbs1, list_insert_insert_eq.
Qed.

(** What a backpropagation from the node [id] does to the arena: the nodes
    on the way up, the node [id] and the root among them, get one [Update]
    each, and the others stay as they are. *)
Definition bumped (r : string) (id : nat) (ns ns' : list Node) : Prop :=
  length ns' = length ns
  ∧ ∀ j n, ns !! j = Some n →
      (ns' !! j = Some n ∨ ns' !! j = Some (Update_node r n))
      ∧ (j = id ∨ j = root → ns' !! j = Some (Update_node r n))
      ∧ ((id < j)%nat → ns' !! j = Some n).

Lemma bumped_skel r id ns ns' : bumped r id ns ns' → skel <$> ns' = skel <$> ns.
Proof.
  intros [Hlen Hall]. apply list_eq. intros j. rewrite !list_lookup_fmap.
  destruct (ns !! j) as [n|] eqn:Hn.
  - destruct (Hall j n Hn) as ([->| ->] & _); done.
  - apply lookup_ge_None in Hn. rewrite <- Hlen in Hn.
    apply lookup_ge_None in Hn. by rewrite Hn.
Qed.

Lemma backpropagate_spec cb fuel id state w u w' :
  shape root rb cb (skel <$> nodes w) →
  (root ≤ id)%nat → is_Some (nodes w !! id) →
  backpropagate fuel (Some id) state w = Ok (u, w') →
  boards w' = boards w ∧ rng w' = rng w
  ∧ ∃ b, boards w !! state = Some b ∧ bumped (result b) id (nodes w) (nodes w').
Proof.
  revert id w. induction fuel as [|fuel IH]; intros id w Hshape Hid [n Hn];
    simpl; [done|].
  intros (b & w1 & [Hb ->]%get_board_Ok & Hrest)%bind_Ok.
  apply bind_Ok in Hrest as (u1 & w1 & (n0 & Hn0 & ->)%Update_Ok & Hrest).
  assert (n0 = n) as -> by congruence.
  apply bind_Ok in Hrest as (n1 & w2 & [Hn1 ->]%get_node_Ok & Hrest).
  simpl in Hn1. rewrite list_lookup_insert_eq in Hn1 by by eapply lookup_lt_Some.
  injection Hn1 as <-.
  change (parentNode (Update_node (result b) n)) with (parentNode n) in Hrest.
  pose proof (lookup_skel _ _ _ Hn) as Hsk.
  destruct (parentNode n) as [p|] eqn:Hp.
  - assert (root < id)%nat as Hlt.
    { destruct (decide (id = root)) as [->|]; [|lia].
      destruct (shape_root _ _ _ _ Hshape) as (s & Hs & Hps & _).
      rewrite Hsk in Hs. injection Hs as <-. simpl in Hps. congruence. }
    destruct (shape_parent _ _ _ _ Hshape id (skel n) Hlt Hsk)
      as (p' & m & bp & Hp' & Hrange & _ & Hbp & _).
    simpl in Hp'. assert (p' = p) as -> by congruence.
    assert (is_Some (nodes w !! p)) as [pn Hpn].
    { apply lookup_lt_is_Some. apply lookup_lt_Some in Hn. lia. }
    apply IH in Hrest as (Hbs & Hrng & b' & Hb' & Hlen & Hall); simpl in *.
    + assert (b' = b) as -> by congruence.
      split; [done|]. split; [done|]. exists b. split; [done|]. split.
      { by rewrite Hlen, length_insert. }
      intros j nj Hj. destruct (decide (j = id)) as [->|Hne].
      * assert (nj = n) as -> by congruence.
        destruct (Hall id (Update_node (result b) n)) as (_ & _ & Hsame).
        { apply list_lookup_insert_eq. by eapply lookup_lt_Some. }
        rewrite Hsame by lia. split; [by right|]. split; [done|lia].
      * destruct (Hall j nj) as (Hor & Hup & Hsame).
        { by rewrite list_lookup_insert_ne. }
        split; [done|]. split.
        { intros [Heq|Heq]; [done|]. apply Hup. by right. }
        intros Hjid. apply Hsame. lia.
    + rewrite list_fmap_insert, list_insert_id; [done|].
      by rewrite skel_Update_node.
    + lia.
    + apply lookup_lt_is_Some. rewrite length_insert.
      by eapply lookup_lt_Some.
  - assert (backpropagate fuel None state = ret tt) as Hnone by by destruct fuel.
    rewrite Hnone in Hrest. apply ret_Ok in Hrest as [_ ->]. simpl.
    split; [done|]. split; [done|]. exists b. split; [done|].
    split; [by rewrite length_insert|].
    assert (id = root) as ->.
    { destruct (decide (id = root)) as [|Hne]; [done|].
      destruct (shape_parent _ _ _ _ Hshape id (skel n) ltac:(lia) Hsk)
        as (p' & m & bp & Hp' & _). simpl in Hp'. congruence. }
    intros j nj Hj. destruct (decide (j = root)) as [->|Hne].
    * assert (nj = n) as -> by congruence.
      rewrite list_lookup_insert_eq by by eapply lookup_lt_Some.
      split; [by right|]. split; [done|lia].
    * rewrite list_lookup_insert_ne by done.
      split; [by left|]. split; [|done]. by intros [?|?].
Qed.


Lemma stats_bumped k pending id r ns ns' :
  stats_ok root k pending (stat <$> ns) →
  pending = None ∨ pending = Some id →
  bumped r id ns ns' →
  stats_ok root (S k) None (stat <$> ns').
Proof.
  intros [(st & Hst & Hk) Hall] Hpending [Hlen Hbump]. split.
  - apply list_lookup_fmap_Some in Hst as (nr & -> & Hnr).
    destruct (Hbump root nr Hnr) as (_ & Hup & _).
    exists (stat (Update_node r nr)). split.
    + rewrite list_lookup_fmap, Hup by by right. done.
    + simpl in *. lia.
  - intros i st' Hi Hst'.
    apply list_lookup_fmap_Some in Hst' as (n' & -> & Hn').
    assert (is_Some (ns !! i)) as [n Hn].
    { apply lookup_lt_is_Some. rewrite <- Hlen. by eapply lookup_lt_Some. }
    destruct (Hall i (stat n) Hi) as (Hlo & Hhi & Hv0 & Hv1).
    { by rewrite list_lookup_fmap, Hn. }
    destruct (Hbump i n Hn) as (Hor & Hup & _).
    assert (n' = Update_node r n ∨ (n' = n ∧ pending ≠ Some i)) as [->|[-> Hnp]].
    { destruct Hor as [Hsame|Hupd]; [|left; congruence].
      destruct Hpending as [Hp|Hp]; subst pending; [right; split; congruence|].
      destruct (decide (i = id)) as [->|Hne]; [|right; split; congruence].
      left. rewrite Hup in Hn' by by left. congruence. }
    + destruct (Update_node_bounds r n Hlo Hhi) as [Hlo' Hhi'].
      simpl in *. repeat split; try done; lia.
    + simpl in *. repeat split; try done. intros Hlt _. by apply Hv1.
Qed.

Lemma insert_last_app {A} (l : list A) (x y : A) :
  <[length l := x]> (l ++ [y]) = l ++ [x].
Proof. induction l as [|z l IH]; simpl; [done|]. by rewrite IH. Qed.

(** The store between two iterations of a search that started from the
    boards [bs0]: these boards are still there, the tree under [root] has
    its shape and its statistics after [k] iterations, there is one more
    board for each iteration, and the tree has at most [k] nodes under the
    root. *)
Definition Inv (bs0 : list Board) (k : nat) (w : World) : Prop :=
  bs0 `prefix_of` boards w
  ∧ length (boards w) = (length bs0 + k)%nat
  ∧ (length (nodes w) ≤ root + 1 + k)%nat
  ∧ (∀ nr, nodes w !! root = Some nr → childNodes nr ≠ [] → (1 ≤ k)%nat)
  ∧ ∃ cb, shape root rb cb (skel <$> nodes w)
          ∧ stats_ok root k None (stat <$> nodes w).

Lemma iteration_spec bs0 rootstate fuel k w u w' :
  bs0 !! rootstate = Some rb →
  Inv bs0 k w →
  iteration pick_move policy fuel root rootstate w = Ok (u, w') →
  Inv bs0 (S k) w'.
Proof.
  intros Hrb (Hpre & Hblen & Hlen & _ & cb & Hshape & Hstats). unfold iteration.
  intros (state & w1 & (v & Hv & -> & ->)%board_copy_Ok & Hrest)%bind_Ok.
  rewrite (prefix_lookup_Some _ _ _ _ Hrb Hpre) in Hv. injection Hv as <-.
  apply bind_Ok in Hrest as (node & w2 & Hsel & Hrest).
  destruct (shape_root _ _ _ _ Hshape) as (sr & Hsr & _ & Hcbr).
  eapply (select_loop_spec cb (nodes w) fuel root _ _ node w2 rb) in Hsel
    as (Hns2 & _ & Hnode & Hsome & b2 & Hcb2 & Hbs2);
    [|done|done|lia|done|by apply list_lookup_middle].
  simpl in Hbs2.
  apply bind_Ok in Hrest as (node' & w3 & Hexp & Hrest).
  eapply (expand_spec cb k node _ w2 node' w3 b2) in Hexp
    as (cb' & b3 & pending & Hshape3 & Hstats3 & Hpending & Hnode' & Hsome'
        & Hbs3 & Hlen3);
    [|by rewrite Hns2|by rewrite Hns2|done|done|].
  2:{ rewrite Hbs2. apply list_lookup_insert_eq. rewrite length_app. simpl. lia. }
  apply bind_Ok in Hrest as (u4 & w4 & (Hns4 & b4 & Hbs4)%simulate_spec & Hback).
  eapply (backpropagate_spec cb' fuel node' _ w4 u w') in Hback
    as (Hbs5 & _ & b5 & _ & Hbump);
    [|by rewrite Hns4|done|by rewrite Hns4].
  rewrite Hns4 in Hbump. rewrite Hns2 in Hlen3.
  assert (boards w' = boards w ++ [b4]) as Hbs'.
  { by rewrite Hbs5, Hbs4, Hbs3, Hbs2, !list_insert_insert_eq, insert_last_app. }
  unfold Inv. rewrite Hbs'.
  split; [|split; [|split; [|split]]].
  - by apply prefix_app_r.
  - rewrite length_app. simpl. lia.
  - destruct Hbump as [-> _]. lia.
  - intros; lia.
  - exists cb'. split.
    + by rewrite (bumped_skel _ _ _ _ Hbump).
    + by eapply stats_bumped.
Qed.

Lemma iterate_spec bs0 rootstate fuel rounds k w u w' :
  bs0 !! rootstate = Some rb →
  Inv bs0 k w →
  iterate pick_move policy rounds fuel root rootstate w = Ok (u, w') →
  Inv bs0 (k + rounds) w'.
Proof.
  intros Hrb. revert k w. induction rounds as [|rounds IH]; intros k w Hinv; simpl.
  - intros [_ ->]%ret_Ok. by rewrite Nat.add_0_r.
  - intros ([] & w1 & Hit & Hrest)%bind_Ok.
    replace (k + S rounds)%nat with (S k + rounds)%nat by lia.
    eapply IH; [|done]. by eapply iteration_spec.
Qed.

(** The store after the loop of [UCT]. *)
Lemma UCT_tree_spec fuel rootstate itermax w rootnode w' :
  root = length (nodes w) →
  boards w !! rootstate = Some rb →
  UCT_tree pick_move policy fuel rootstate itermax w = Ok (rootnode, w') →
  rootnode = root ∧ Inv (boards w) (Z.to_nat itermax) w'.
Proof.
  intros Hroot Hrb. unfold UCT_tree.
  intros (r & w1 & (b & Hb & -> & ->)%Node_init_Ok & Hrest)%bind_Ok.
  assert (b = rb) as -> by congruence.
  apply bind_Ok in Hrest as (u & w2 & Hit & [-> ->]%ret_Ok).
  split; [done|]. rewrite <- Hroot in Hit.
  apply (iterate_spec (boards w) rootstate fuel _ 0 _ _ _ Hrb) in Hit; [done|].
  split; [done|]. simpl. split; [lia|].
  split; [rewrite length_app; simpl; lia|]. split.
  - intros nr Hnr. rewrite Hroot, list_lookup_middle in Hnr by done.
    by injection Hnr as <-.
  - exists (replicate (length (skel <$> nodes w)) rb ++ [rb]). split.
    + rewrite fmap_app. apply shape_init. by rewrite length_fmap.
    + rewrite fmap_app, Hroot, <- (length_fmap stat). apply stats_ok_init.
Qed.

End SearchFacts.

(** ** The first engine: picking and rolling out keep the store *)

Section PlainFacts.
Context `{BoardApi} `{PyFloat}.

Lemma choose_untried_picks : picks_untried choose_untried.
Proof.
  intros node w m w'. unfold choose_untried.
  intros (n & w1 & [Hn ->]%get_node_Ok & [Hm ->]%random_choice_Ok)%bind_Ok.
  simpl. eauto.
Qed.

Lemma rollout_policy_keeps dev : keeps_store (rollout_policy_with dev).
Proof.
  intros state w m w'. unfold rollout_policy_with.
  intros (b & w1 & [Hb ->]%get_board_Ok & Hrun)%bind_Ok.
  unfold run_sampler, random_choices in Hrun.
  destruct (rollout_sampler dev b) as [moves|moves ps].
  - by apply random_choice_Ok in Hrun as [_ ->].
  - destruct (negb _); [done|]. destruct (Qle_bool _ _); [done|].
    by apply random_choice_Ok in Hrun as [_ ->].
Qed.

Lemma most_visited_Ok rootnode w mv w' :
  most_visited rootnode w = Ok (mv, w') →
  w' = w ∧ ∃ n best c,
    nodes w !! rootnode = Some n
    ∧ sorted_last Z.ltb (key_of_visits (nodes w)) (childNodes n) = Ok best
    ∧ nodes w !! best = Some c ∧ mv = move c.
Proof.
  unfold most_visited.
  intros (n & w1 & [Hn ->]%get_node_Ok & Hrest)%bind_Ok.
  apply bind_Ok in Hrest as (best & w1 & [Hbest ->]%lift_Ok & Hrest).
  apply bind_Ok in Hrest as (c & w1 & [Hc ->]%get_node_Ok & [-> ->]%ret_Ok).
  split; [done|]. by exists n, best, c.
Qed.

Lemma UCT_with_Ok pick policy fuel rootstate itermax w mv w' :
  UCT_with pick policy fuel rootstate itermax w = Ok (mv, w') →
  ∃ rootnode, UCT_tree pick policy fuel rootstate itermax w = Ok (rootnode, w')
              ∧ most_visited rootnode w' = Ok (mv, w').
Proof.
  unfold UCT_with. intros (rootnode & w1 & Htree & Hbest)%bind_Ok.
  apply most_visited_Ok in Hbest as Hw. destruct Hw as [-> _]. eauto.
Qed.

Lemma UCT_tree_rootstate pick policy fuel rootstate itermax w rootnode w' :
  UCT_tree pick policy fuel rootstate itermax w = Ok (rootnode, w') →
  is_Some (boards w !! rootstate).
Proof.
  unfold UCT_tree.
  intros (r & w1 & (b & Hb & _)%Node_init_Ok & _)%bind_Ok. eauto.
Qed.

(** The tree that [UCT] leaves in the store. *)
Lemma UCT_Inv fuel rootstate itermax w mv w' :
  UCT fuel rootstate itermax w = Ok (mv, w') →
  ∃ rb, boards w !! rootstate = Some rb
        ∧ Inv (length (nodes w)) rb (boards w) (Z.to_nat itermax) w'
        ∧ most_visited (length (nodes w)) w' = Ok (mv, w').
Proof.
  intros (rootnode & Htree & Hbest)%UCT_with_Ok.
  destruct (UCT_tree_rootstate _ _ _ _ _ _ _ _ Htree) as [rb Hrb].
  exists rb. split; [done|].
  destruct (UCT_tree_spec choose_untried rollout_policy choose_untried_picks
              (rollout_policy_keeps _) (length (nodes w)) rb fuel rootstate
              itermax w rootnode w' eq_refl Hrb Htree) as [-> Hinv].
  by split.
Qed.
End PlainFacts.

(** C4: when [UCT(rootstate, n)] has returned, the root node, which is the
    node made first, has been visited [n] times. *)
Theorem UCT_root_visits `{BoardApi} `{PyFloat} (fuel rootstate : nat)
    (itermax : Z) (w : World) (mv : option Move) (w' : World) :
  (1 <= itermax)%Z →
  UCT fuel rootstate itermax w = Ok (mv, w') →
  ∃ rootnode, nodes w' !! length (nodes w) = Some rootnode
              ∧ parentNode rootnode = None
              ∧ visits rootnode = itermax.
Proof.
  intros Hn (rb & _ & (_ & _ & _ & _ & cb & Hshape & [Hroot _]) & _)%UCT_Inv.
  destruct Hroot as (st & Hst & Hv).
  apply list_lookup_fmap_Some in Hst as (nr & -> & Hnr).
  exists nr. split; [done|]. split.
  - destruct (shape_root _ _ _ _ Hshape) as (s & Hs & Hp & _).
    rewrite list_lookup_fmap, Hnr in Hs. injection Hs as <-. done.
  - simpl in Hv. lia.
Qed.

Lemma UCT_root_visits_witness :
  ∃ mv w', UCT 10 0 3%Z (Toy.start [1; 0; 1; 1; 0; 1]%nat) = Ok (mv, w')
    ∧ ∃ rootnode, nodes w' !! 0%nat = Some rootnode
                  ∧ parentNode rootnode = None
                  ∧ visits rootnode = 3%Z.
Proof.
  eexists _, _. split; [vm_compute; reflexivity|].
  eapply (UCT_root_visits (H := Toy.toy_board) 10 0 3
           (Toy.start [1; 0; 1; 1; 0; 1]%nat)); [lia|vm_compute; reflexivity].
Defined.

(** C8: every call of [Update] adds one to [visits] and one of -1, 0, 1/2
    and 1 to the score, which keeps the score between minus the visits and
    the visits; so in the tree that [UCT] has built, whatever the number of
    iterations, the score of a visited node divided by its visits lies
    between -1 and 1. *)
Theorem UCT_score_per_visit `{BoardApi} `{PyFloat} (fuel rootstate : nat)
    (itermax : Z) (w : World) (mv : option Move) (w' : World) :
  UCT fuel rootstate itermax w = Ok (mv, w') →
  (∀ r n, visits (Update_node r n) = (visits n + 1)%Z
          ∧ (wins (Update_node r n) = (wins n + 1)%Q
             ∨ wins (Update_node r n) = (wins n - 1)%Q
             ∨ wins (Update_node r n) = (wins n + (1 # 2))%Q
             ∨ wins (Update_node r n) = wins n))
  ∧ ∀ i n, (length (nodes w) ≤ i)%nat → nodes w' !! i = Some n →
      (1 <= visits n)%Z →
      (-1 <= wins n / inject_Z (visits n))%Q
      ∧ (wins n / inject_Z (visits n) <= 1)%Q.
Proof.
  intros (rb & _ & (_ & _ & _ & _ & cb & _ & [_ Hall]) & _)%UCT_Inv.
  split; [intros r n; split; [done|apply wins_Update_node]|].
  intros i n Hi Hn Hv.
  destruct (Hall i (stat n) Hi) as (Hlo & Hhi & _).
  { by rewrite list_lookup_fmap, Hn. }
  simpl in Hlo, Hhi.
  assert (0 < inject_Z (visits n))%Q as Hpos.
  { change 0%Q with (inject_Z 0). rewrite <- Zlt_Qlt. lia. }
  split.
  - apply Qle_shift_div_l; [done|]. lra.
  - apply Qle_shift_div_r; [done|]. lra.
Qed.

Lemma UCT_score_per_visit_witness :
  ∃ mv w', UCT 10 0 3%Z (Toy.start [1; 0; 1; 1; 0; 1]%nat) = Ok (mv, w')
    ∧ ∀ i n, (0 ≤ i)%nat → nodes w' !! i = Some n → (1 <= visits n)%Z →
        (-1 <= wins n / inject_Z (visits n))%Q
        ∧ (wins n / inject_Z (visits n) <= 1)%Q.
Proof.
  eexists _, _. split; [vm_compute; reflexivity|].
  eapply (UCT_score_per_visit (H := Toy.toy_board) 10 0 3
           (Toy.start [1; 0; 1; 1; 0; 1]%nat)). vm_compute; reflexivity.
Defined.

(** C10: [UCT] leaves the board [rootstate], and every other board that was
    there, as it was; every iteration works on one new board, its copy. *)
Theorem UCT_keeps_rootstate `{BoardApi} `{PyFloat} (fuel rootstate : nat)
    (itermax : Z) (w : World) (mv : option Move) (w' : World) :
  UCT fuel rootstate itermax w = Ok (mv, w') →
  boards w' !! rootstate = boards w !! rootstate
  ∧ (∀ l b, boards w !! l = Some b → boards w' !! l = Some b)
  ∧ length (boards w') = (length (boards w) + Z.to_nat itermax)%nat.
Proof.
  intros (rb & Hrb & (Hpre & Hlen & _) & _)%UCT_Inv.
  split; [|split; [|done]].
  - rewrite Hrb. by eapply prefix_lookup_Some.
  - intros l b Hl. by eapply prefix_lookup_Some.
Qed.

Lemma UCT_keeps_rootstate_witness :
  ∃ mv w', UCT 10 0 3%Z (Toy.start [1; 0; 1; 1; 0; 1]%nat) = Ok (mv, w')
    ∧ boards w' !! 0%nat = boards (Toy.start [1; 0; 1; 1; 0; 1]%nat) !! 0%nat
    ∧ (∀ l b, boards (Toy.start [1; 0; 1; 1; 0; 1]%nat) !! l = Some b →
              boards w' !! l = Some b)
    ∧ length (boards w') = (1 + 3)%nat.
Proof.
  eexists _, _. split; [vm_compute; reflexivity|].
  eapply (UCT_keeps_rootstate (H := Toy.toy_board) 10 0 3
           (Toy.start [1; 0; 1; 1; 0; 1]%nat)). vm_compute; reflexivity.
Defined.

(** ** The board a node was made for *)

(** The moves on the way from the root of its tree down to the node [i]. *)
Fixpoint path_moves (sks : list Skel) (fuel : nat) (i : nat) : list Move :=
  match fuel with
  | O => []
  | S fuel' =>
      match sks !! i with
      | Some s =>
          match sk_parent s, sk_move s with
          | Some p, Some m => path_moves sks fuel' p ++ [m]
          | _, _ => []
          end
      | None => []
      end
  end.

(** The value of [state] when [Node(move, parent, state)] made the node
    [i]: the root board with the moves down to the node pushed. *)
Definition made_for `{BoardApi} (rb : Board) (ns : list Node) (i : nat) : Board :=
  foldl push rb (path_moves (skel <$> ns) (S i) i).

Section MadeFor.
Context `{BoardApi}.
Variables (root : nat) (rb : Board).

Lemma shape_made_for cb sks i fuel :
  shape root rb cb sks → (root ≤ i)%nat → (i < fuel)%nat → is_Some (sks !! i) →
  cb !! i = Some (foldl push rb (path_moves sks fuel i)).
Proof.
  intros Hshape. revert i.
  induction fuel as [|fuel IH]; intros i Hi Hfuel [s Hs]; [lia|].
  simpl. rewrite Hs.
  destruct (decide (i = root)) as [->|Hne].
  - destruct (shape_root _ _ _ _ Hshape) as (sr & Hsr & Hp & Hcb).
    assert (sr = s) as -> by congruence. by rewrite Hp.
  - destruct (shape_parent _ _ _ _ Hshape i s ltac:(lia) Hs)
      as (p & m & bp & -> & Hrange & -> & Hbp & Hbi).
    rewrite foldl_snoc, Hbi. do 2 f_equal.
    assert (cb !! p = Some (foldl push rb (path_moves sks fuel p))) as Hp.
    { apply IH; [lia|lia|]. apply lookup_lt_is_Some.
      apply lookup_lt_Some in Hs. lia. }
    congruence.
Qed.

Lemma length_child_moves cb sks i s :
  shape root rb cb sks → (root ≤ i)%nat → sks !! i = Some s →
  length (child_moves sks s) = length (sk_children s).
Proof.
  intros Hshape Hi Hs. unfold child_moves.
  assert (∀ c, c ∈ sk_children s → is_Some (sks !! c ≫= sk_move)) as Hall.
  { intros c Hc.
    destruct (shape_children _ _ _ _ Hshape i s c Hi Hs Hc) as (Hlt & cs & Hcs & _).
    destruct (shape_parent _ _ _ _ Hshape c cs ltac:(lia) Hcs)
      as (_ & m & _ & _ & _ & Hm & _).
    rewrite Hcs. simpl. eauto. }
  revert Hall. generalize (sk_children s). intros l Hall.
  induction l as [|c l IH]; [done|].
  change (c :: l) with ([c] ++ l). rewrite omap_app, !length_app, IH.
  - destruct (Hall c) as [m Hm]; [left|]. simpl. by rewrite Hm.
  - intros c' Hc'. apply Hall. by right.
Qed.
End MadeFor.

(** C7: in the tree that [UCT] has built, whatever the number of
    iterations, the untried moves of a node followed by the moves of its
    children are, up to their order, the legal moves of the board the node
    was made for; no move is there twice, so none is both untried and tried;
    and the node has at most as many children as that board has legal
    moves.  The chess library lists no legal move twice. *)
Theorem UCT_moves_partition `{BoardApi} `{PyFloat} (fuel rootstate : nat)
    (itermax : Z) (w : World) (mv : option Move) (w' : World) (rb : Board) :
  (∀ b, NoDup (legal_moves b)) →
  boards w !! rootstate = Some rb →
  UCT fuel rootstate itermax w = Ok (mv, w') →
  ∀ i n, (length (nodes w) ≤ i)%nat → nodes w' !! i = Some n →
    let tried := child_moves (skel <$> nodes w') (skel n) in
    let made := made_for rb (nodes w') i in
    untriedMoves n ++ tried ≡ₚ legal_moves made
    ∧ NoDup (untriedMoves n ++ tried)
    ∧ length tried = length (childNodes n)
    ∧ (length (childNodes n) ≤ length (legal_moves made))%nat.
Proof.
  intros Hnodup Hrb (rb' & Hrb' & (_ & _ & _ & _ & cb & Hshape & _) & _)%UCT_Inv.
  assert (rb' = rb) as -> by congruence.
  intros i n Hi Hn tried made.
  pose proof (lookup_skel _ _ _ Hn) as Hs.
  assert (cb !! i = Some made) as Hmade.
  { apply (shape_made_for _ _ _ _ _ _ Hshape); [done|lia|eauto]. }
  pose proof (shape_moves _ _ _ _ Hshape i (skel n) made Hi Hs Hmade) as Hperm.
  pose proof (length_child_moves _ _ _ _ _ _ Hshape Hi Hs) as Hlen.
  simpl in Hperm, Hlen. fold tried in Hperm, Hlen.
  split; [done|]. split; [by rewrite Hperm|]. split; [done|].
  rewrite <- Hperm, length_app, <- Hlen. lia.
Qed.

Lemma UCT_moves_partition_witness :
  ∃ mv w', UCT 10 0 3%Z (Toy.start [1; 0; 1; 1; 0; 1]%nat) = Ok (mv, w')
    ∧ ∀ i n, (0 ≤ i)%nat → nodes w' !! i = Some n →
        let tried := child_moves (skel <$> nodes w') (skel n) in
        let made := made_for ([] : @Board Toy.toy_board) (nodes w') i in
        untriedMoves n ++ tried ≡ₚ legal_moves made
        ∧ NoDup (untriedMoves n ++ tried)
        ∧ length tried = length (childNodes n)
        ∧ (length (childNodes n) ≤ length (legal_moves made))%nat.
Proof.
  eexists _, _. split; [vm_compute; reflexivity|].
  eapply (UCT_moves_partition (H := Toy.toy_board) 10 0 3
            (Toy.start [1; 0; 1; 1; 0; 1]%nat)).
  - apply Toy_legal_moves_NoDup.
  - reflexivity.
  - vm_compute; reflexivity.
Defined.

(** ** The search returns *)

(** What is asked of the chess library for a search to return: no legal move
    is listed twice; a game that is not over has a legal move; and every
    game ends, a legal move of a game that is not over bringing the board
    closer to its end by the measure [plies_left], which is bounded. *)
Class BoardLaws `{BoardApi} : Type := {
  plies_left : Board → nat;
  max_plies : nat;
  legal_moves_NoDup : ∀ b, NoDup (legal_moves b);
  game_goes_on : ∀ b, is_game_over b = false → legal_moves b ≠ [];
  plies_left_bound : ∀ b, (plies_left b ≤ max_plies)%nat;
  push_plies_left : ∀ b m,
    is_game_over b = false → m ∈ legal_moves b →
    (plies_left (push b m) < plies_left b)%nat;
}.

(** A way to take the move to expand that does return one. *)
Definition picks_some `{BoardApi} (pick : nat → M Move) : Prop :=
  ∀ node w n, nodes w !! node = Some n → untriedMoves n ≠ [] →
    ∃ m w', pick node w = Ok (m, w').

(** A rollout policy that returns a legal move of a game that is not over. *)
Definition rolls_legal `{BoardApi} (policy : nat → M Move) : Prop :=
  ∀ state w b, boards w !! state = Some b → is_game_over b = false →
    ∃ m w', policy state w = Ok (m, w') ∧ m ∈ legal_moves b.

Lemma bind_run `{BoardApi} {A B} (m : M A) (k : A → M B) w a w1 :
  m w = Ok (a, w1) → bind m k w = k a w1.
Proof. intros Hm. unfold bind. by rewrite Hm. Qed.

Lemma is_nil_true {A} (l : list A) : is_nil l = true ↔ l = [].
Proof. by destruct l. Qed.

Lemma is_nil_false {A} (l : list A) : is_nil l = false ↔ l ≠ [].
Proof. by destruct l. Qed.

Section Totality.
Context `{BoardApi} `{PyFloat} `{!PyFloatLaws} `{!BoardLaws}.
Variables (pick_move policy : nat → M Move).
Hypothesis pick_ok : picks_untried pick_move.
Hypothesis policy_ok : keeps_store policy.
Hypothesis pick_total : picks_some pick_move.
Hypothesis policy_total : rolls_legal policy.
Variables (root : nat) (rb : Board).

Lemma select_loop_total cb k ns fuel cur state w b :
  shape root rb cb (skel <$> ns) → stats_ok root k None (stat <$> ns) →
  (∀ nr, ns !! root = Some nr → childNodes nr ≠ [] → (1 ≤ k)%nat) →
  nodes w = ns → (root ≤ cur)%nat → is_Some (ns !! cur) →
  boards w !! state = Some b →
  (length ns ≤ cur + fuel)%nat →
  ∃ node w', select_loop fuel cur state w = Ok (node, w').
Proof.
  intros Hshape [(st & Hst & Hk) Hstats] Hrootk. revert cur w b.
  induction fuel as [|fuel IH]; intros cur w b Hns Hcur [n Hn] Hstate Hfuel.
  { apply lookup_lt_Some in Hn. lia. }
  rewrite select_loop_unfold.
  rewrite (bind_run _ _ _ n w) by (apply get_node_lookup; by rewrite Hns).
  destruct (_ && _) eqn:Hcond; [|by eexists _, _].
  apply andb_true_iff in Hcond as [_ Hchildren%negb_true_iff%is_nil_false].
  destruct (UCTSelectChild_total w cur n) as (c & l1 & l2 & cn & Hsel & Hl & Hcn & _).
  - by rewrite Hns.
  - done.
  - destruct (decide (cur = root)) as [->|Hne].
    + apply list_lookup_fmap_Some in Hst as (nr & -> & Hnr).
      assert (nr = n) as -> by congruence.
      specialize (Hrootk n Hn Hchildren). simpl in Hk. lia.
    + destruct (Hstats cur (stat n) Hcur) as (_ & _ & _ & Hv).
      { by rewrite list_lookup_fmap, Hn. }
      apply Hv; [lia|done].
  - intros c Hc.
    destruct (shape_children _ _ _ _ Hshape cur (skel n) c Hcur
                (lookup_skel _ _ _ Hn) Hc) as (Hlt & cs & Hcs & _).
    apply list_lookup_fmap_Some in Hcs as (cn & _ & Hcn).
    exists cn. split; [by rewrite Hns|].
    destruct (Hstats c (stat cn)) as (_ & _ & _ & Hv); [lia| |].
    { by rewrite list_lookup_fmap, Hcn. }
    apply Hv; [lia|done].
  - rewrite Hns in Hcn.
    assert (c ∈ childNodes n) as Hc.
    { rewrite Hl. apply elem_of_app. right. left. }
    destruct (shape_children _ _ _ _ Hshape cur (skel n) c Hcur
                (lookup_skel _ _ _ Hn) Hc) as (Hlt & _).
    destruct (shape_parent _ _ _ _ Hshape c (skel cn) ltac:(lia)
                (lookup_skel _ _ _ Hcn)) as (_ & m & _ & _ & _ & Hm & _).
    simpl in Hm.
    rewrite (bind_run _ _ _ _ _ Hsel).
    assert (push_node_move state c w
            = Ok (tt, mkWorld (nodes w) (<[state := push b m]> (boards w)) (rng w)))
      as Hpush.
    { unfold push_node_move.
      rewrite (bind_run _ _ _ cn w) by (apply get_node_lookup; by rewrite Hns).
      rewrite Hm. unfold board_push. by rewrite Hstate. }
    rewrite (bind_run _ _ _ _ _ Hpush).
    apply (IH c _ (push b m)); [done|lia|eauto| |lia].
    simpl. apply list_lookup_insert_eq. by eapply lookup_lt_Some.
Qed.

Lemma select_loop_stays fuel cur state w n :
  nodes w !! cur = Some n →
  is_nil (untriedMoves n) && negb (is_nil (childNodes n)) = false →
  select_loop fuel cur state w = Ok (cur, w).
Proof.
  intros Hn Hcond. rewrite select_loop_unfold.
  rewrite (bind_run _ _ _ n w) by by apply get_node_lookup.
  by rewrite Hcond.
Qed.

Lemma expand_total node state w n b :
  nodes w !! node = Some n → boards w !! state = Some b →
  ∃ node' w', expand pick_move node state w = Ok (node', w').
Proof.
  intros Hn Hb. unfold expand.
  rewrite (bind_run _ _ _ n w) by by apply get_node_lookup.
  destruct (negb _) eqn:Hcond; [|by eexists _, _].
  apply negb_true_iff, is_nil_false in Hcond.
  destruct (pick_total node w n Hn Hcond) as (m & w1 & Hpick).
  destruct (pick_ok _ _ _ _ Hpick) as (Hns1 & Hbs1 & n' & Hn' & Hm).
  assert (n' = n) as -> by congruence.
  rewrite (bind_run _ _ _ _ _ Hpick).
  assert (board_push state m w1
          = Ok (tt, mkWorld (nodes w1) (<[state := push b m]> (boards w1)) (rng w1)))
    as Hpush.
  { unfold board_push. by rewrite Hbs1, Hb. }
  rewrite (bind_run _ _ _ _ _ Hpush).
  apply (AddChild_total node m state _ n (push b m)); simpl; [congruence| |done].
  rewrite Hbs1. apply list_lookup_insert_eq. by eapply lookup_lt_Some.
Qed.

Lemma simulate_total fuel state w b :
  boards w !! state = Some b → (plies_left b ≤ fuel)%nat →
  ∃ w', simulate policy fuel state w = Ok (tt, w').
Proof.
  revert w b. induction fuel as [|fuel IH]; intros w b Hb Hfuel;
    rewrite simulate_unfold;
    rewrite (bind_run _ _ _ b w) by (by apply get_board_Ok);
    (destruct (is_game_over b) eqn:Hover; [by eexists|]).
  - destruct (policy_total state w b Hb Hover) as (m & w1 & _ & Hm).
    pose proof (push_plies_left b m Hover Hm). lia.
  - destruct (policy_total state w b Hb Hover) as (m & w1 & Hpol & Hm).
    destruct (policy_ok _ _ _ _ Hpol) as [Hns1 Hbs1].
    rewrite (bind_run _ _ _ _ _ Hpol).
    assert (board_push state m w1
            = Ok (tt, mkWorld (nodes w1) (<[state := push b m]> (boards w1))
                        (rng w1))) as Hpush.
    { unfold board_push. by rewrite Hbs1, Hb. }
    rewrite (bind_run _ _ _ _ _ Hpush).
    apply (IH _ (push b m)).
    + simpl. rewrite Hbs1. apply list_lookup_insert_eq. by eapply lookup_lt_Some.
    + pose proof (push_plies_left b m Hover Hm). lia.
Qed.

Lemma backpropagate_total cb fuel id state w b :
  shape root rb cb (skel <$> nodes w) →
  (root ≤ id)%nat → is_Some (nodes w !! id) → boards w !! state = Some b →
  (id < root + fuel)%nat →
  ∃ w', backpropagate fuel (Some id) state w = Ok (tt, w').
Proof.
  revert id w. induction fuel as [|fuel IH]; intros id w Hshape Hid [n Hn] Hb Hfuel;
    [lia|].
  simpl. rewrite (bind_run _ _ _ b w) by by apply get_board_Ok.
  set (w1 := mkWorld (<[id := Update_node (result b) n]> (nodes w))
               (boards w) (rng w)).
  assert (Update id (result b) w = Ok (tt, w1)) as Hupd.
  { apply Update_Ok. eauto. }
  rewrite (bind_run _ _ _ _ _ Hupd).
  rewrite (bind_run _ _ _ (Update_node (result b) n) w1).
  2:{ apply get_node_lookup. simpl. apply list_lookup_insert_eq.
      by eapply lookup_lt_Some. }
  change (parentNode (Update_node (result b) n)) with (parentNode n).
  pose proof (lookup_skel _ _ _ Hn) as Hsk.
  destruct (parentNode n) as [p|] eqn:Hp.
  - destruct (decide (id = root)) as [->|Hne].
    { destruct (shape_root _ _ _ _ Hshape) as (s & Hs & Hps & _).
      rewrite Hsk in Hs. injection Hs as <-. simpl in Hps. congruence. }
    destruct (shape_parent _ _ _ _ Hshape id (skel n) ltac:(lia) Hsk)
      as (p' & m & bp & Hp' & Hrange & _).
    simpl in Hp'. assert (p' = p) as -> by congruence.
    apply (IH p); simpl.
    + rewrite list_fmap_insert, list_insert_id; [done|].
      by rewrite skel_Update_node.
    + lia.
    + apply lookup_lt_is_Some. rewrite length_insert.
      apply lookup_lt_Some in Hn. lia.
    + done.
    + lia.
  - destruct fuel; by eexists.
Qed.


(** After an expansion a node that had a child still has one, and the
    expanded node has one if it had an untried move. *)
Lemma expand_children node state w node' w' j n :
  expand pick_move node state w = Ok (node', w') →
  nodes w !! j = Some n →
  childNodes n ≠ [] ∨ (j = node ∧ untriedMoves n ≠ []) →
  ∃ n', nodes w' !! j = Some n' ∧ childNodes n' ≠ [].
Proof.
  unfold expand.
  intros (nn & w1 & [Hnn ->]%get_node_Ok & Hrest)%bind_Ok Hn Hor.
  destruct (negb _) eqn:Hcond.
  - apply bind_Ok in Hrest as (m & w1 & Hpick & Hrest).
    destruct (pick_ok _ _ _ _ Hpick) as (Hns1 & Hbs1 & _).
    apply bind_Ok in Hrest as (u & w2 & (v & Hv & ->)%board_push_Ok & Hadd).
    eapply (AddChild_Ok node m state _ node' w' nn) in Hadd
      as (b2 & untried' & _ & _ & -> & ->); [|simpl; congruence].
    simpl. rewrite Hns1.
    assert (node < length (nodes w))%nat by by eapply lookup_lt_Some.
    destruct (decide (j = node)) as [->|Hne].
    + eexists. split.
      * apply list_lookup_insert_eq. rewrite length_app. simpl. lia.
      * simpl. by destruct (childNodes nn).
    + exists n. split.
      * rewrite list_lookup_insert_ne by done.
        rewrite lookup_app_l by by eapply lookup_lt_Some. done.
      * destruct Hor as [?|[? _]]; done.
  - apply ret_Ok in Hrest as [-> ->]. exists n. split; [done|].
    destruct Hor as [?|[-> Hunt]]; [done|].
    assert (nn = n) as -> by congruence.
    apply negb_false_iff, is_nil_true in Hcond. done.
Qed.

Lemma Inv_init w rootstate :
  root = length (nodes w) → boards w !! rootstate = Some rb →
  Inv root rb (boards w) 0
    (mkWorld (nodes w ++ [mkNode None None [] 0%Q 0%Z (legal_moves rb) (turn rb)])
       (boards w) (rng w)).
Proof.
  intros Hroot Hrb. split; [done|]. simpl. split; [lia|].
  split; [rewrite length_app; simpl; lia|]. split.
  - intros nr Hnr. rewrite Hroot, list_lookup_middle in Hnr by done.
    by injection Hnr as <-.
  - exists (replicate (length (skel <$> nodes w)) rb ++ [rb]). split.
    + rewrite fmap_app. apply shape_init. by rewrite length_fmap.
    + rewrite fmap_app, Hroot, <- (length_fmap stat). apply stats_ok_init.
Qed.

Definition root_has_child (w : World) : Prop :=
  ∀ nr, nodes w !! root = Some nr → childNodes nr ≠ [].

Lemma iteration_total bs0 rootstate fuel k w :
  bs0 !! rootstate = Some rb → is_game_over rb = false →
  Inv root rb bs0 k w →
  (max_plies ≤ fuel)%nat → (k + 2 ≤ fuel)%nat →
  ∃ w', iteration pick_move policy fuel root rootstate w = Ok (tt, w')
        ∧ root_has_child w'.
Proof.
  intros Hrb Hover (Hpre & Hblen & Hlen & Hrootk & cb & Hshape & Hstats) Hplies Hk.
  unfold iteration.
  pose proof (prefix_lookup_Some _ _ _ _ Hrb Hpre) as Hrs.
  set (state := length (boards w)).
  set (w1 := mkWorld (nodes w) (boards w ++ [rb]) (rng w)).
  assert (board_copy rootstate w = Ok (state, w1)) as Hcopy.
  { apply board_copy_Ok. eauto. }
  rewrite (bind_run _ _ _ _ _ Hcopy).
  destruct (shape_root _ _ _ _ Hshape) as (sr & Hsr & _ & Hcbr).
  apply list_lookup_fmap_Some in Hsr as (nr & -> & Hnr).
  assert (boards w1 !! state = Some rb) as Hstate1 by by apply list_lookup_middle.
  destruct (select_loop_total cb k (nodes w) fuel root state w1 rb)
    as (node & w2 & Hsel); [done|done|done|done|lia|eauto|done|lia|].
  rewrite (bind_run _ _ _ _ _ Hsel).
  destruct (select_loop_spec root rb cb (nodes w) fuel root state w1 node w2 rb)
    as (Hns2 & _ & Hnode & [n2 Hn2] & b2 & Hcb2 & Hbs2);
    [done|done|lia|done|done|done|].
  simpl in Hbs2.
  assert (boards w2 !! state = Some b2) as Hstate2.
  { rewrite Hbs2. apply list_lookup_insert_eq. rewrite length_app. simpl.
    unfold state. lia. }
  destruct (expand_total node state w2 n2 b2) as (node' & w3 & Hexp);
    [by rewrite Hns2|done|].
  rewrite (bind_run _ _ _ _ _ Hexp).
  destruct (expand_spec pick_move pick_ok root rb cb k node state w2 node' w3 b2)
    as (cb' & b3 & pending & Hshape3 & Hstats3 & Hpending & Hnode' & Hsome'
        & Hbs3 & Hlen3);
    [by rewrite Hns2|by rewrite Hns2|done|done|done|done|].
  assert (boards w3 !! state = Some b3) as Hstate3.
  { rewrite Hbs3. apply list_lookup_insert_eq. by eapply lookup_lt_Some. }
  destruct (simulate_total fuel state w3 b3) as (w4 & Hsim); [done| |].
  { pose proof (plies_left_bound b3). lia. }
  rewrite (bind_run _ _ _ _ _ Hsim).
  destruct (simulate_spec policy policy_ok fuel state w3 tt w4 Hsim)
    as (Hns4 & b4 & Hbs4).
  assert (boards w4 !! state = Some b4) as Hstate4.
  { rewrite Hbs4. apply list_lookup_insert_eq. by eapply lookup_lt_Some. }
  destruct (backpropagate_total cb' fuel node' state w4 b4) as (w5 & Hback);
    [by rewrite Hns4|done|by rewrite Hns4|done| |].
  { destruct Hsome' as [n' Hn']. apply lookup_lt_Some in Hn'.
    rewrite Hns2 in Hlen3. lia. }
  exists w5. split; [done|].
  destruct (backpropagate_spec root rb cb' fuel node' state w4 tt w5)
    as (_ & _ & b5 & _ & Hbump); [by rewrite Hns4|done|by rewrite Hns4|done|].
  apply bumped_skel in Hbump. rewrite Hns4 in Hbump.
  assert (∃ n3, nodes w3 !! root = Some n3 ∧ childNodes n3 ≠ []) as (n3 & Hn3 & Hc3).
  { destruct (decide (childNodes nr = [])) as [Hnil|Hnonnil].
    - assert (untriedMoves nr ≠ []) as Hunt.
      { pose proof (shape_moves _ _ _ _ Hshape root (skel nr) rb ltac:(lia)
                      (lookup_skel _ _ _ Hnr) Hcbr) as Hperm.
        unfold child_moves in Hperm. simpl in Hperm. rewrite Hnil in Hperm.
        simpl in Hperm. rewrite app_nil_r in Hperm.
        intros Hempty. rewrite Hempty in Hperm.
        apply Permutation_nil_l in Hperm. by apply (game_goes_on rb). }
      assert (select_loop fuel root state w1 = Ok (root, w1)) as Hstay.
      { apply (select_loop_stays fuel root state w1 nr); [done|].
        rewrite Hnil. simpl. by rewrite andb_false_r. }
      rewrite Hstay in Hsel. injection Hsel as <- <-.
      apply (expand_children root state w1 node' w3 root nr Hexp); [done|].
      right. by split.
    - apply (expand_children node state w2 node' w3 root nr Hexp);
        [by rewrite Hns2|by left]. }
  intros nr5 Hnr5.
  assert (skel nr5 = skel n3) as Hskel.
  { pose proof (lookup_skel _ _ _ Hnr5) as H5. rewrite Hbump in H5.
    rewrite (lookup_skel _ _ _ Hn3) in H5. congruence. }
  change (childNodes nr5) with (sk_children (skel nr5)). by rewrite Hskel.
Qed.

Lemma iterate_total bs0 rootstate fuel rounds k w :
  bs0 !! rootstate = Some rb → is_game_over rb = false →
  Inv root rb bs0 k w →
  (max_plies ≤ fuel)%nat → (k + rounds + 1 ≤ fuel)%nat →
  root_has_child w ∨ (1 ≤ rounds)%nat →
  ∃ w', iterate pick_move policy rounds fuel root rootstate w = Ok (tt, w')
        ∧ Inv root rb bs0 (k + rounds) w' ∧ root_has_child w'.
Proof.
  intros Hrb Hover. revert k w.
  induction rounds as [|rounds IH]; intros k w Hinv Hplies Hk Hchild; simpl.
  - exists w. rewrite Nat.add_0_r. destruct Hchild as [?|?]; [done|lia].
  - destruct (iteration_total bs0 rootstate fuel k w) as (w1 & Hit & Hchild1);
      [done|done|done|done|lia|].
    rewrite (bind_run _ _ _ _ _ Hit).
    replace (k + S rounds)%nat with (S k + rounds)%nat by lia.
    apply IH; [|done|lia|by left].
    by eapply (iteration_spec pick_move policy pick_ok policy_ok).
Qed.


Lemma most_visited_total cb w n :
  shape root rb cb (skel <$> nodes w) →
  nodes w !! root = Some n → childNodes n ≠ [] →
  ∃ m best c l1 l2,
    most_visited root w = Ok (Some m, w)
    ∧ childNodes n = l1 ++ best :: l2
    ∧ nodes w !! best = Some c ∧ move c = Some m
    ∧ (∀ x, x ∈ l1 → ∃ xn, nodes w !! x = Some xn ∧ (visits xn <= visits c)%Z)
    ∧ (∀ x, x ∈ l2 → ∃ xn, nodes w !! x = Some xn ∧ (visits xn < visits c)%Z).
Proof.
  intros Hshape Hn Hne.
  assert (∀ x, x ∈ childNodes n → (root < x)%nat ∧ ∃ xn, nodes w !! x = Some xn
            ∧ key_of_visits (nodes w) x = Ok (visits xn)) as Hkeys.
  { intros x Hx.
    destruct (shape_children _ _ _ _ Hshape root (skel n) x ltac:(lia)
                (lookup_skel _ _ _ Hn) Hx) as (Hlt & xs & Hxs & _).
    apply list_lookup_fmap_Some in Hxs as (xn & _ & Hxn).
    split; [done|]. exists xn. split; [done|].
    unfold key_of_visits. by rewrite Hxn. }
  assert (∀ x y, (x <=? y)%Z = true ∨ (y <=? x)%Z = true) as Htotal.
  { intros x y. rewrite !Z.leb_le. lia. }
  assert (∀ x y z, (x <=? y)%Z = true → (y <=? z)%Z = true → (x <=? z)%Z = true)
    as Htrans.
  { intros x y z. rewrite !Z.leb_le. lia. }
  destruct (sorted_last_total Z.leb Z.ltb (λ x y, Z.ltb_antisym y x) Htotal Htrans
              (key_of_visits (nodes w)) (childNodes n)) as
    (best & Hbest & l1 & l2 & kc & Hl & Hkc & Hl1 & Hl2).
  - done.
  - intros x (_ & xn & _ & Hx)%Hkeys. eauto.
  - destruct (Hkeys best) as (Hlt & c & Hc & Hkey).
    { rewrite Hl. apply elem_of_app. right. left. }
    assert (kc = visits c) as -> by congruence.
    destruct (shape_parent _ _ _ _ Hshape best (skel c) Hlt (lookup_skel _ _ _ Hc))
      as (_ & m & _ & _ & _ & Hm & _).
    simpl in Hm. exists m, best, c, l1, l2. split.
    { unfold most_visited.
      rewrite (bind_run _ _ _ n w) by by apply get_node_lookup.
      rewrite (bind_run _ _ _ best w) by (unfold lift; by rewrite Hbest).
      rewrite (bind_run _ _ _ c w) by by apply get_node_lookup.
      by rewrite Hm. }
    split; [done|]. split; [done|]. split; [done|].
    split; intros x Hx.
    + destruct (Hl1 x Hx) as (kx & Hkx & Hle).
      destruct (Hkeys x) as (_ & xn & Hxn & Hxk).
      { rewrite Hl. apply elem_of_app. by left. }
      exists xn. split; [done|]. apply Z.leb_le. congruence.
    + destruct (Hl2 x Hx) as (kx & Hkx & Hltx).
      destruct (Hkeys x) as (_ & xn & Hxn & Hxk).
      { rewrite Hl. apply elem_of_app. right. by right. }
      exists xn. split; [done|]. apply Z.ltb_lt. congruence.
Qed.

(** [UCT] on a game that is not over, for at least one iteration, with
    fuel for the longest game and the deepest tree. *)
Lemma UCT_with_total fuel rootstate itermax w :
  boards w !! rootstate = Some rb → is_game_over rb = false →
  root = length (nodes w) →
  (1 <= itermax)%Z →
  (max_plies + Z.to_nat itermax + 1 ≤ fuel)%nat →
  ∃ m w' rootnode best c l1 l2,
    UCT_with pick_move policy fuel rootstate itermax w = Ok (Some m, w')
    ∧ nodes w' !! root = Some rootnode
    ∧ childNodes rootnode = l1 ++ best :: l2
    ∧ nodes w' !! best = Some c ∧ move c = Some m
    ∧ (∀ x, x ∈ l1 → ∃ xn, nodes w' !! x = Some xn ∧ (visits xn <= visits c)%Z)
    ∧ (∀ x, x ∈ l2 → ∃ xn, nodes w' !! x = Some xn ∧ (visits xn < visits c)%Z).
Proof.
  intros Hrb Hover Hroot Hn Hfuel.
  set (w1 := mkWorld
               (nodes w ++ [mkNode None None [] 0%Q 0%Z (legal_moves rb) (turn rb)])
               (boards w) (rng w)).
  assert (Node_init None None rootstate w = Ok (root, w1)) as Hinit.
  { apply Node_init_Ok. exists rb. by rewrite Hroot. }
  destruct (iterate_total (boards w) rootstate fuel (Z.to_nat itermax) 0 w1)
    as (w' & Hit & Hinv & Hchild);
    [done|done|by apply (Inv_init w rootstate)|lia|lia|right; lia|].
  destruct Hinv as (_ & _ & _ & _ & cb & Hshape & _).
  destruct (shape_root _ _ _ _ Hshape) as (sr & Hsr & _).
  apply list_lookup_fmap_Some in Hsr as (nr & _ & Hnr).
  destruct (most_visited_total cb w' nr Hshape Hnr (Hchild nr Hnr))
    as (m & best & c & l1 & l2 & Hbest & Hrest).
  exists m, w', nr, best, c, l1, l2. split; [|by split].
  unfold UCT_with, UCT_tree.
  rewrite (bind_run _ _ _ root w').
  - done.
  - rewrite (bind_run _ _ _ _ _ Hinit).
    by rewrite (bind_run _ _ _ _ _ Hit).
Qed.
End Totality.

Section PlainTotal.
Context `{BoardApi} `{PyFloat} `{!BoardLaws}.

Lemma choose_untried_some : picks_some choose_untried.
Proof.
  intros node w n Hn Hne. unfold choose_untried.
  rewrite (bind_run _ _ _ n w) by by apply get_node_lookup.
  destruct (random_choice_total (untriedMoves n) w Hne) as (m & Hm & _). eauto.
Qed.

(** The weights divided by their total add up to one. *)
Lemma Qsum_quotients (l : list Z) (t : Z) :
  (Qsum ((λ p, inject_Z p / inject_Z t)%Q <$> l)
   == inject_Z (Zsum l) / inject_Z t)%Q.
Proof.
  induction l as [|p l IH]; simpl.
  - unfold Qdiv. by rewrite Qmult_0_l.
  - rewrite IH, inject_Z_plus. unfold Qdiv. ring.
Qed.

Lemma rollout_policy_rolls dev : rolls_legal (rollout_policy_with dev).
Proof.
  intros state w b Hb Hover. unfold rollout_policy_with.
  rewrite (bind_run _ _ _ b w) by by apply get_board_Ok.
  rewrite rollout_sampler_NoDup by apply legal_moves_NoDup.
  pose proof (game_goes_on b Hover) as Hne.
  destruct (random_choice_total (legal_moves b) w Hne) as (m & Hm & Hin).
  destruct (Zsum _ =? 0)%Z eqn:Hsum; simpl; [eauto|].
  unfold random_choices. rewrite length_fmap, length_fmap, Nat.eqb_refl. simpl.
  apply Z.eqb_neq in Hsum.
  destruct (Qle_bool _ 0) eqn:Hle; [|eauto].
  apply Qle_bool_iff in Hle. rewrite Qsum_quotients in Hle.
  set (t := Zsum (move_weight dev b <$> legal_moves b)) in *.
  assert (inject_Z t / inject_Z t == 1)%Q as Hone.
  { apply Qmult_inv_r. intros Hzero. apply Hsum.
    change 0%Q with (inject_Z 0) in Hzero. by apply inject_Z_injective. }
  rewrite Hone in Hle. done.
Qed.
End PlainTotal.

(** C6: on a game that is not over and for at least one iteration, with
    fuel for the longest game and the deepest tree, [UCT] returns the move of
    a child of the root; no child has more visits than this one, and every
    child created after it has fewer. *)
Theorem UCT_returns_most_visited `{BoardApi} `{PyFloat} `{!PyFloatLaws}
    `{!BoardLaws} (fuel rootstate : nat) (itermax : Z) (w : World) (rb : Board) :
  boards w !! rootstate = Some rb → is_game_over rb = false →
  (1 <= itermax)%Z →
  (max_plies + Z.to_nat itermax + 1 ≤ fuel)%nat →
  ∃ m w' rootnode best c l1 l2,
    UCT fuel rootstate itermax w = Ok (Some m, w')
    ∧ nodes w' !! length (nodes w) = Some rootnode
    ∧ childNodes rootnode = l1 ++ best :: l2
    ∧ nodes w' !! best = Some c ∧ move c = Some m
    ∧ (∀ x, x ∈ l1 → ∃ xn, nodes w' !! x = Some xn ∧ (visits xn <= visits c)%Z)
    ∧ (∀ x, x ∈ l2 → ∃ xn, nodes w' !! x = Some xn ∧ (visits xn < visits c)%Z).
Proof.
  intros Hrb Hover Hn Hfuel.
  by apply (UCT_with_total choose_untried rollout_policy choose_untried_picks
              (rollout_policy_keeps _) choose_untried_some
              (rollout_policy_rolls _) (length (nodes w)) rb).
Qed.

(** The toy game ends after three plies. *)
Global Program Instance toy_board_laws : @BoardLaws Toy.toy_board := {|
  plies_left b := (3 - length b)%nat;
  max_plies := 3%nat;
|}.
Next Obligation. apply Toy_legal_moves_NoDup. Qed.
Next Obligation. by intros [|m1 [|m2 [|m3 b]]]. Qed.
Next Obligation. intros b. simpl. lia. Qed.
Next Obligation. intros [|m1 [|m2 [|m3 b]]] m; simpl; intros; (done || lia). Qed.

Lemma UCT_returns_most_visited_witness :
  ∃ m w' rootnode best c l1 l2,
    UCT 10 0 3%Z (Toy.start [1; 0; 1; 1; 0; 1]%nat) = Ok (Some m, w')
    ∧ nodes w' !! 0%nat = Some rootnode
    ∧ childNodes rootnode = l1 ++ best :: l2
    ∧ nodes w' !! best = Some c ∧ move c = Some m
    ∧ (∀ x, x ∈ l1 → ∃ xn, nodes w' !! x = Some xn ∧ (visits xn <= visits c)%Z)
    ∧ (∀ x, x ∈ l2 → ∃ xn, nodes w' !! x = Some xn ∧ (visits xn < visits c)%Z).
Proof.
  apply (UCT_returns_most_visited (H := Toy.toy_board) 10 0 3
           (Toy.start [1; 0; 1; 1; 0; 1]%nat) []).
  - reflexivity.
  - reflexivity.
  - lia.
  - simpl. lia.
Defined.

(** * Further properties of the engine *)

(** ** The opening table and the move choice of play_game *)

Lemma get_opening_move_Ok `{BoardApi} (board : nat) (w : World)
    (om : option Move) (w' : World) :
  get_opening_move board w = Ok (om, w') → om = None ∧ w' = w.
Proof.
  unfold get_opening_move.
  intros (b & w1 & [Hb ->]%get_board_Ok & [Hlook ->]%lift_Ok)%bind_Ok.
  split; [|done].
  destruct (opening_lookup_None (move_stack b)) as [Hnone|[e He]]; congruence.
Qed.

(** X1: whatever the board, [get_opening_move] finds no opening move: when
    it returns, it returns [None] and has changed nothing. *)
Theorem get_opening_move_finds_nothing `{BoardApi} (board : nat) (w : World)
    (om : option Move) (w' : World) :
  get_opening_move board w = Ok (om, w') → om = None ∧ w' = w.
Proof. apply get_opening_move_Ok. Qed.

Lemma get_opening_move_finds_nothing_witness :
  ∃ om w', get_opening_move 0 (Toy.after_e4_e5 []) = Ok (om, w')
           ∧ om = None ∧ w' = Toy.after_e4_e5 [].
Proof.
  eexists _, _. split; [vm_compute; reflexivity|].
  apply (get_opening_move_finds_nothing (H := Toy.toy_board) 0
           (Toy.after_e4_e5 [])).
  vm_compute. reflexivity.
Defined.

(** X2: every move that [play_game] makes comes from the search: when the
    choice of the move returns, [UCT(board, 50)] returns the same move and
    the same store. *)
Theorem choose_move_searches `{BoardApi} `{PyFloat} (fuel board : nat)
    (w : World) (mv : option Move) (w' : World) :
  choose_move fuel board w = Ok (mv, w') → UCT fuel board 50%Z w = Ok (mv, w').
Proof.
  unfold choose_move. intros (om & w1 & Hom & Hrest)%bind_Ok.
  by apply get_opening_move_Ok in Hom as [-> ->].
Qed.

Lemma choose_move_searches_witness :
  ∃ mv w', choose_move 5 0 (Toy.after_e4_e5 [1; 0; 1]%nat) = Ok (mv, w')
           ∧ UCT 5 0 50%Z (Toy.after_e4_e5 [1; 0; 1]%nat) = Ok (mv, w').
Proof.
  eexists _, _. split; [vm_compute; reflexivity|].
  apply (choose_move_searches (H := Toy.toy_board) 5 0
           (Toy.after_e4_e5 [1; 0; 1]%nat)).
  vm_compute. reflexivity.
Defined.

(** ** AddChild *)

Lemma list_remove_absent (m : Move) l : m ∉ l → list_remove m l = Err ValueError.
Proof.
  induction l as [|y l IH]; intros Hm; simpl; [done|].
  apply not_elem_of_cons in Hm as [Hne Hm].
  rewrite decide_False by done. by rewrite IH.
Qed.

(** X3: [AddChild] with a move that is not among the untried moves of the
    node raises [ValueError], the error of [list.remove]. *)
Theorem AddChild_unknown_move `{BoardApi} (self : nat) (m : Move) (s : nat)
    (w : World) (me : Node) (b : Board) :
  nodes w !! self = Some me → boards w !! s = Some b →
  m ∉ untriedMoves me →
  AddChild self m s w = Err ValueError.
Proof.
  intros Hme Hb Hm.
  assert (self < length (nodes w))%nat as Hlt by by eapply lookup_lt_Some.
  unfold AddChild, Node_init, bind, get_board, new_node, get_node, lift.
  rewrite Hb. simpl. rewrite lookup_app_l by done. rewrite Hme.
  by rewrite list_remove_absent.
Qed.

Lemma AddChild_unknown_move_witness :
  AddChild 0 (mkMove E2 E5 None None) 0 toy_root_world = Err ValueError.
Proof.
  apply (AddChild_unknown_move (H := Toy.toy_board) 0 (mkMove E2 E5 None None) 0
           toy_root_world (mkNode None None [] 0%Q 0%Z [e2e4; e7e5] true) []).
  - reflexivity.
  - reflexivity.
  - simpl. rewrite !not_elem_of_cons.
    repeat split; try discriminate. apply not_elem_of_nil.
Defined.

(** X4: [AddChild] with one of the untried moves of the node returns a new
    node, the last of the arena: its parent is the node, its move the given
    one, its untried moves the legal moves of the given board, and it has no
    visit, score or child.  The node loses the first occurrence of the move
    among its untried moves and gets the new node as its last child; its
    statistics, and every other node and board, stay as they are. *)
Theorem AddChild_effect `{BoardApi} (self : nat) (m : Move) (s : nat)
    (w : World) (me : Node) (b : Board) :
  nodes w !! self = Some me → boards w !! s = Some b →
  m ∈ untriedMoves me →
  ∃ untried',
    list_remove m (untriedMoves me) = Ok untried'
    ∧ untriedMoves me ≡ₚ m :: untried'
    ∧ AddChild self m s w
      = Ok (length (nodes w),
            mkWorld
              (<[self := mkNode (move me) (parentNode me)
                           (childNodes me ++ [length (nodes w)])
                           (wins me) (visits me) untried' (playerJustMoved me)]>
                 (nodes w ++ [mkNode (Some m) (Some self) [] 0%Q 0%Z
                                (legal_moves b) (turn b)]))
              (boards w) (rng w)).
Proof.
  intros Hme Hb Hm.
  destruct (AddChild_total self m s w me b Hme Hb Hm) as (id & w' & Hadd).
  destruct (AddChild_Ok self m s w id w' me Hme Hadd)
    as (b' & untried' & Hb' & Hrem & -> & ->).
  assert (b' = b) as -> by congruence.
  exists untried'. split; [done|]. split; [by apply list_remove_Permutation|done].
Qed.

Lemma AddChild_effect_witness :
  ∃ untried',
    list_remove e7e5 [e2e4; e7e5] = Ok untried'
    ∧ [e2e4; e7e5] ≡ₚ e7e5 :: untried'
    ∧ AddChild 0 e7e5 0 toy_root_world
      = Ok (1%nat,
            mkWorld
              [mkNode None None [1%nat] 0%Q 0%Z untried' true;
               mkNode (Some e7e5) (Some 0%nat) [] 0%Q 0%Z [e2e4; e7e5] true]
              [[]] []).
Proof.
  apply (AddChild_effect (H := Toy.toy_board) 0 e7e5 0 toy_root_world
           (mkNode None None [] 0%Q 0%Z [e2e4; e7e5] true) []).
  - reflexivity.
  - reflexivity.
  - right. left.
Defined.

(** ** UCTSelectChild: what raises *)

Lemma map_res_first_error {A B} e (f : A → res B) l x :
  x ∈ l → f x = Err e → (∀ y, y ∈ l → f y = Err e ∨ ∃ z, f y = Ok z) →
  map_res f l = Err e.
Proof.
  intros Hx Hfx. induction l as [|y l IH]; intros Hall; [by apply elem_of_nil in Hx|].
  simpl. destruct (Hall y) as [Hy|[z Hz]]; [left|by rewrite Hy|].
  rewrite Hz. simpl.
  apply elem_of_cons in Hx as [->|Hx]; [congruence|].
  rewrite IH; [done|done|]. intros y' Hy'. apply Hall. by right.
Qed.

Lemma sorted_last_error {K A} e ltb (key : A → res K) l x :
  x ∈ l → key x = Err e → (∀ y, y ∈ l → key y = Err e ∨ ∃ k, key y = Ok k) →
  sorted_last ltb key l = Err e.
Proof.
  intros Hx Hkx Hall. unfold sorted_last.
  rewrite (map_res_first_error e _ l x); [done|done|by rewrite Hkx|].
  intros y Hy. destruct (Hall y Hy) as [->|[k ->]]; [by left|right; by eexists].
Qed.

(** X5: [UCTSelectChild] on a node without children raises [IndexError],
    the error of [[-1]] on an empty list. *)
Theorem UCTSelectChild_no_children `{BoardApi} `{PyFloat} (self : nat)
    (w : World) (n : Node) :
  nodes w !! self = Some n → childNodes n = [] →
  UCTSelectChild self w = Err IndexError.
Proof.
  intros Hn Hnil. unfold UCTSelectChild.
  rewrite (bind_run _ _ _ n w) by by apply get_node_lookup.
  by rewrite Hnil.
Qed.

Lemma UCTSelectChild_no_children_witness :
  UCTSelectChild 0 toy_root_world = Err IndexError.
Proof.
  apply (UCTSelectChild_no_children (H := Toy.toy_board) 0 toy_root_world
           (mkNode None None [] 0%Q 0%Z [e2e4; e7e5] true)); reflexivity.
Defined.

(** X6: [UCTSelectChild] on a visited node one of whose children has no
    visit yet raises [ZeroDivisionError]: a node must not be selected from
    before each of its children has been updated once. *)
Theorem UCTSelectChild_unvisited_child `{BoardApi} `{PyFloat} `{!PyFloatLaws}
    (self : nat) (w : World) (n : Node) (c : nat) (cn : Node) :
  nodes w !! self = Some n → (1 <= visits n)%Z →
  (∀ x, x ∈ childNodes n → ∃ xn, nodes w !! x = Some xn ∧ (0 <= visits xn)%Z) →
  c ∈ childNodes n → nodes w !! c = Some cn → visits cn = 0%Z →
  UCTSelectChild self w = Err ZeroDivisionError.
Proof.
  intros Hn Hv Hall Hc Hcn Hzero. unfold UCTSelectChild.
  rewrite (bind_run _ _ _ n w) by by apply get_node_lookup.
  unfold lift.
  rewrite (sorted_last_error ZeroDivisionError fltb _ (childNodes n) c); [done|done| |].
  - unfold key_of, uct_key. by rewrite Hcn, Hzero.
  - intros y (yn & Hyn & Hy)%Hall. unfold key_of. rewrite Hyn.
    destruct (decide (visits yn = 0%Z)) as [Hy0|Hy0].
    + left. unfold uct_key. by rewrite Hy0.
    + right. exists (uct_value (visits n) yn). apply uct_key_value; lia.
Qed.

(** A store with a visited root and two children, the second not yet
    updated. *)
Definition toy_fresh_child_world : World :=
  mkWorld
    [mkNode None None [1; 2]%nat 1%Q 1%Z [] true;
     mkNode (Some e2e4) (Some 0%nat) [] 1%Q 1%Z [e2e4; e7e5] false;
     mkNode (Some e7e5) (Some 0%nat) [] 0%Q 0%Z [e2e4; e7e5] false]
    [[]] [].

Lemma UCTSelectChild_unvisited_child_witness :
  UCTSelectChild 0 toy_fresh_child_world = Err ZeroDivisionError.
Proof.
  apply (UCTSelectChild_unvisited_child (H := Toy.toy_board) 0
           toy_fresh_child_world
           (mkNode None None [1; 2]%nat 1%Q 1%Z [] true) 2
           (mkNode (Some e7e5) (Some 0%nat) [] 0%Q 0%Z [e2e4; e7e5] false)).
  - reflexivity.
  - simpl. lia.
  - intros x Hx. simpl in Hx.
    apply elem_of_cons in Hx as [->|Hx]; [eexists; split; [reflexivity|simpl; lia]|].
    apply list_elem_of_singleton in Hx as ->.
    eexists; split; [reflexivity|simpl; lia].
  - simpl. right. left.
  - reflexivity.
  - reflexivity.
Defined.

(** X7: [UCTSelectChild] on a node without a visit whose children have all
    been visited raises [ValueError], the error of [log(0)]. *)
Theorem UCTSelectChild_unvisited_parent `{BoardApi} `{PyFloat} (self : nat)
    (w : World) (n : Node) :
  nodes w !! self = Some n → (visits n <= 0)%Z → childNodes n ≠ [] →
  (∀ x, x ∈ childNodes n → ∃ xn, nodes w !! x = Some xn ∧ visits xn ≠ 0%Z) →
  UCTSelectChild self w = Err ValueError.
Proof.
  intros Hn Hv Hne Hall. unfold UCTSelectChild.
  rewrite (bind_run _ _ _ n w) by by apply get_node_lookup.
  unfold lift.
  assert (∀ y, y ∈ childNodes n →
            key_of (nodes w) (uct_key (visits n)) y = Err ValueError) as Hkeys.
  { intros y (yn & Hyn & Hy)%Hall. unfold key_of, uct_key. rewrite Hyn.
    rewrite (proj2 (Z.eqb_neq _ _)) by done.
    by rewrite (proj2 (Z.leb_le _ _)) by done. }
  destruct (childNodes n) as [|c l] eqn:Hl; [done|].
  rewrite (sorted_last_error ValueError fltb _ (c :: l) c); [done|left| |].
  - apply Hkeys. left.
  - intros y Hy. left. by apply Hkeys.
Qed.

Lemma UCTSelectChild_unvisited_parent_witness :
  UCTSelectChild 0
    (mkWorld
       [mkNode None None [1%nat] 0%Q 0%Z [] true;
        mkNode (Some e2e4) (Some 0%nat) [] 1%Q 1%Z [e2e4; e7e5] false]
       [[]] [] : @World Toy.toy_board)
  = Err ValueError.
Proof.
  apply (UCTSelectChild_unvisited_parent (H := Toy.toy_board) 0 _
           (mkNode None None [1%nat] 0%Q 0%Z [] true)).
  - reflexivity.
  - simpl. lia.
  - discriminate.
  - intros x Hx. simpl in Hx. apply list_elem_of_singleton in Hx as ->.
    eexists; split; [reflexivity|simpl; lia].
Defined.

(** ** rollout_policy: what it returns *)

(** X8: on a board without a legal move [rollout_policy] raises
    [IndexError]: there is no weight, the total is zero, and
    [random.choice] gets an empty list. *)
Theorem rollout_policy_no_moves `{BoardApi} (dev : list Square) (board : nat)
    (b : Board) (w : World) :
  boards w !! board = Some b → legal_moves b = [] →
  rollout_policy_with dev board w = Err IndexError.
Proof.
  intros Hb Hnil. unfold rollout_policy_with.
  rewrite (bind_run _ _ _ b w) by by apply get_board_Ok.
  unfold rollout_sampler, rollout_weights. by rewrite Hnil.
Qed.

Lemma rollout_policy_no_moves_witness :
  rollout_policy 0 (mkWorld [] [[e2e4; e7e5; e2e4]] [] : @World Toy.toy_board)
  = Err IndexError.
Proof.
  apply (rollout_policy_no_moves (H := Toy.toy_board) piece_development_squares
           0 [e2e4; e7e5; e2e4]); reflexivity.
Defined.

(** X9: on a board with legal moves, none listed twice, [rollout_policy]
    returns one of the legal moves, whatever the signs of the weights: the
    weights handed to [random.choices] add up to one, so it accepts them.
    Nothing changes but the position of [random]. *)
Theorem rollout_policy_returns_legal `{BoardApi} (dev : list Square)
    (board : nat) (b : Board) (w : World) :
  boards w !! board = Some b →
  NoDup (legal_moves b) → legal_moves b ≠ [] →
  ∃ m, rollout_policy_with dev board w
       = Ok (m, mkWorld (nodes w) (boards w) (tl (rng w)))
       ∧ m ∈ legal_moves b.
Proof.
  intros Hb Hnd Hne. unfold rollout_policy_with.
  rewrite (bind_run _ _ _ b w) by by apply get_board_Ok.
  rewrite rollout_sampler_NoDup by done.
  destruct (random_choice_total (legal_moves b) w Hne) as (m & Hm & Hin).
  exists m. split; [|done].
  destruct (Zsum _ =? 0)%Z eqn:Hsum; simpl; [done|].
  unfold random_choices. rewrite length_fmap, length_fmap, Nat.eqb_refl. simpl.
  apply Z.eqb_neq in Hsum.
  destruct (Qle_bool _ 0) eqn:Hle; [|done].
  apply Qle_bool_iff in Hle.
  assert (∀ (l : list Z) (t : Z),
            (Qsum ((λ p, inject_Z p / inject_Z t)%Q <$> l)
             == inject_Z (Zsum l) / inject_Z t)%Q) as Hquot.
  { intros l t. induction l as [|p l IH]; simpl.
    - unfold Qdiv. by rewrite Qmult_0_l.
    - rewrite IH, inject_Z_plus. unfold Qdiv. ring. }
  rewrite Hquot in Hle.
  set (t := Zsum (move_weight dev b <$> legal_moves b)) in *.
  assert (inject_Z t / inject_Z t == 1)%Q as Hone.
  { apply Qmult_inv_r. intros Hzero. apply Hsum.
    change 0%Q with (inject_Z 0) in Hzero. by apply inject_Z_injective. }
  rewrite Hone in Hle. done.
Qed.

Lemma rollout_policy_returns_legal_witness :
  ∃ m, rollout_policy 0 (Toy.after_e4 [1]%nat)
       = Ok (m, mkWorld [] [[e2e4]] [])
       ∧ m ∈ [e2e4; e7e5].
Proof.
  apply (rollout_policy_returns_legal (H := Toy.toy_board)
           piece_development_squares 0 [e2e4] (Toy.after_e4 [1]%nat)).
  - reflexivity.
  - apply Toy_legal_moves_NoDup.
  - discriminate.
Defined.





(** ** UCT: edge cases and what it returns *)

Lemma most_visited_no_children `{BoardApi} (rootnode : nat) (w : World) (n : Node) :
  nodes w !! rootnode = Some n → childNodes n = [] →
  most_visited rootnode w = Err IndexError.
Proof.
  intros Hn Hnil. unfold most_visited.
  rewrite (bind_run _ _ _ n w) by by apply get_node_lookup.
  by rewrite Hnil.
Qed.

Lemma UCT_no_iterations_lemma `{BoardApi} `{PyFloat} (fuel rootstate : nat)
    (itermax : Z) (w : World) (rb : Board) :
  boards w !! rootstate = Some rb → (itermax <= 0)%Z →
  UCT fuel rootstate itermax w = Err IndexError.
Proof.
  intros Hrb Hn. unfold UCT, UCT_with, UCT_tree.
  set (w1 := mkWorld
               (nodes w ++ [mkNode None None [] 0%Q 0%Z (legal_moves rb) (turn rb)])
               (boards w) (rng w)).
  assert (Node_init None None rootstate w = Ok (length (nodes w), w1)) as Hinit.
  { apply Node_init_Ok. by exists rb. }
  rewrite (bind_run _ _ _ (length (nodes w)) w1).
  - eapply most_visited_no_children; [by apply list_lookup_middle|done].
  - rewrite (bind_run _ _ _ _ _ Hinit).
    replace (Z.to_nat itermax) with 0%nat by lia. done.
Qed.

(** X12: [UCT] with an iteration count of zero or less raises [IndexError]:
    the root has no child, and [sorted(...)[-1]] has nothing to return. *)
Theorem UCT_no_iterations `{BoardApi} `{PyFloat} (fuel rootstate : nat)
    (itermax : Z) (w : World) (rb : Board) :
  boards w !! rootstate = Some rb → (itermax <= 0)%Z →
  UCT fuel rootstate itermax w = Err IndexError.
Proof. apply UCT_no_iterations_lemma. Qed.

Lemma UCT_no_iterations_witness :
  UCT 10 0 0%Z (Toy.start [1; 0]%nat) = Err IndexError.
Proof.
  apply (UCT_no_iterations (H := Toy.toy_board) 10 0 0 (Toy.start [1; 0]%nat) []).
  - reflexivity.
  - lia.
Defined.

Section TerminalRoot.
Context `{BoardApi} `{PyFloat}.
Variables (pick_move policy : nat → M Move).

(** One iteration on a root without moves whose game is over. *)
Lemma iteration_terminal fuel root rootstate w n rb :
  nodes w !! root = Some n →
  untriedMoves n = [] → childNodes n = [] → parentNode n = None →
  boards w !! rootstate = Some rb → is_game_over rb = true →
  iteration pick_move policy (S fuel) root rootstate w
  = Ok (tt, mkWorld (<[root := Update_node (result rb) n]> (nodes w))
              (boards w ++ [rb]) (rng w)).
Proof.
  intros Hn Hunt Hch Hpar Hrb Hover. unfold iteration.
  set (state := length (boards w)).
  set (w1 := mkWorld (nodes w) (boards w ++ [rb]) (rng w)).
  assert (board_copy rootstate w = Ok (state, w1)) as Hcopy.
  { apply board_copy_Ok. eauto. }
  rewrite (bind_run _ _ _ _ _ Hcopy).
  assert (boards w1 !! state = Some rb) as Hstate by by apply list_lookup_middle.
  rewrite (bind_run _ _ _ root w1).
  2:{ apply (select_loop_stays (S fuel) root state w1 n); [done|].
      by rewrite Hunt, Hch. }
  rewrite (bind_run _ _ _ root w1).
  2:{ unfold expand. rewrite (bind_run _ _ _ n w1) by by apply get_node_lookup.
      by rewrite Hunt. }
  rewrite (bind_run _ _ _ tt w1).
  2:{ rewrite simulate_unfold.
      rewrite (bind_run _ _ _ rb w1) by by apply get_board_Ok.
      by rewrite Hover. }
  simpl. rewrite (bind_run _ _ _ rb w1) by by apply get_board_Ok.
  set (w2 := mkWorld (<[root := Update_node (result rb) n]> (nodes w))
               (boards w ++ [rb]) (rng w)).
  assert (Update root (result rb) w1 = Ok (tt, w2)) as Hupd.
  { apply Update_Ok. eauto. }
  rewrite (bind_run _ _ _ _ _ Hupd).
  rewrite (bind_run _ _ _ (Update_node (result rb) n) w2).
  2:{ apply get_node_lookup. simpl. apply list_lookup_insert_eq.
      by eapply lookup_lt_Some. }
  change (parentNode (Update_node (result rb) n)) with (parentNode n).
  rewrite Hpar. by destruct fuel.
Qed.

Lemma iterate_terminal rounds fuel root rootstate w n rb :
  nodes w !! root = Some n →
  untriedMoves n = [] → childNodes n = [] → parentNode n = None →
  boards w !! rootstate = Some rb → is_game_over rb = true →
  ∃ w' n', iterate pick_move policy rounds (S fuel) root rootstate w = Ok (tt, w')
           ∧ nodes w' !! root = Some n' ∧ childNodes n' = [].
Proof.
  revert w n. induction rounds as [|rounds IH]; intros w n Hn Hunt Hch Hpar Hrb Hover;
    simpl.
  - by exists w, n.
  - rewrite (bind_run _ _ _ _ _
               (iteration_terminal fuel root rootstate w n rb Hn Hunt Hch Hpar Hrb Hover)).
    apply (IH _ (Update_node (result rb) n)); simpl; try done.
    + apply list_lookup_insert_eq. by eapply lookup_lt_Some.
    + apply lookup_app_l_Some. done.
Qed.
End TerminalRoot.

(** X13: [UCT] on a board without a legal move raises [IndexError],
    whatever the iteration count: when the game is over the iterations only
    update the root, and the root has no child to return; when it is not,
    the first rollout has no move to choose. *)
Theorem UCT_no_legal_moves `{BoardApi} `{PyFloat} (fuel rootstate : nat)
    (itermax : Z) (w : World) (rb : Board) :
  boards w !! rootstate = Some rb → legal_moves rb = [] →
  UCT (S fuel) rootstate itermax w = Err IndexError.
Proof.
  intros Hrb Hnil.
  destruct (decide (itermax <= 0)%Z) as [Hn|Hn]; [by eapply UCT_no_iterations_lemma|].
  unfold UCT, UCT_with, UCT_tree.
  set (rn := mkNode None None [] 0%Q 0%Z (legal_moves rb) (turn rb)).
  set (w1 := mkWorld (nodes w ++ [rn]) (boards w) (rng w)).
  set (root := length (nodes w)).
  assert (Node_init None None rootstate w = Ok (root, w1)) as Hinit.
  { apply Node_init_Ok. by exists rb. }
  assert (nodes w1 !! root = Some rn) as Hroot by by apply list_lookup_middle.
  destruct (is_game_over rb) eqn:Hover.
  - destruct (iterate_terminal choose_untried rollout_policy (Z.to_nat itermax) fuel
                root rootstate w1 rn rb) as (w' & n' & Hit & Hn' & Hch); try done.
    rewrite (bind_run _ _ _ root w').
    + by eapply most_visited_no_children.
    + rewrite (bind_run _ _ _ _ _ Hinit). by rewrite (bind_run _ _ _ _ _ Hit).
  - destruct (Z.to_nat itermax) as [|rounds] eqn:Hrounds; [lia|].
    unfold bind at 1. unfold bind at 1. rewrite Hinit.
    simpl. unfold bind at 1. unfold bind at 1.
    assert (iteration choose_untried rollout_policy (S fuel) root rootstate w1
            = Err IndexError) as ->; [|done].
    unfold iteration.
    set (state := length (boards w)).
    set (w2 := mkWorld (nodes w1) (boards w ++ [rb]) (rng w)).
    assert (board_copy rootstate w1 = Ok (state, w2)) as Hcopy.
    { apply board_copy_Ok. eauto. }
    rewrite (bind_run _ _ _ _ _ Hcopy).
    assert (boards w2 !! state = Some rb) as Hstate by by apply list_lookup_middle.
    rewrite (bind_run _ _ _ root w2).
    2:{ apply (select_loop_stays (S fuel) root state w2 rn); [done|].
        subst rn. simpl. by rewrite Hnil. }
    rewrite (bind_run _ _ _ root w2).
    2:{ unfold expand. rewrite (bind_run _ _ _ rn w2) by by apply get_node_lookup.
        subst rn. simpl. by rewrite Hnil. }
    unfold bind at 1.
    assert (simulate rollout_policy (S fuel) state w2 = Err IndexError) as ->; [|done].
    rewrite simulate_unfold.
    rewrite (bind_run _ _ _ rb w2) by by apply get_board_Ok.
    rewrite Hover. unfold bind at 1.
    assert (rollout_policy state w2 = Err IndexError) as ->; [|done].
    unfold rollout_policy, rollout_policy_with.
    rewrite (bind_run _ _ _ rb w2) by by apply get_board_Ok.
    unfold rollout_sampler, rollout_weights. by rewrite Hnil.
Qed.

Lemma UCT_no_legal_moves_witness :
  UCT 1 0 5%Z (mkWorld [] [[e2e4; e7e5; e2e4]] [] : @World Toy.toy_board)
  = Err IndexError.
Proof.
  apply (UCT_no_legal_moves (H := Toy.toy_board) 0 0 5 _ [e2e4; e7e5; e2e4]);
    reflexivity.
Defined.

(** X14: the move that [UCT] returns is a legal move of the root board; it
    never returns [None]. *)
Theorem UCT_returns_legal_move `{BoardApi} `{PyFloat} (fuel rootstate : nat)
    (itermax : Z) (w : World) (mv : option Move) (w' : World) (rb : Board) :
  boards w !! rootstate = Some rb →
  UCT fuel rootstate itermax w = Ok (mv, w') →
  ∃ m, mv = Some m ∧ m ∈ legal_moves rb.
Proof.
  intros Hrb (rb' & Hrb' & (_ & _ & _ & _ & cb & Hshape & _) & Hbest)%UCT_Inv.
  assert (rb' = rb) as -> by congruence.
  apply most_visited_Ok in Hbest as (_ & n & best & c & Hn & Hsorted & Hc & ->).
  apply sorted_last_elem_of in Hsorted.
  pose proof (lookup_skel _ _ _ Hn) as Hs.
  destruct (shape_children _ _ _ _ Hshape _ (skel n) best (le_n _) Hs Hsorted)
    as (Hlt & _).
  destruct (shape_parent _ _ _ _ Hshape best (skel c) Hlt (lookup_skel _ _ _ Hc))
    as (_ & m & _ & _ & _ & Hm & _).
  simpl in Hm. exists m. split; [done|].
  destruct (shape_root _ _ _ _ Hshape) as (_ & _ & _ & Hcb).
  rewrite <- (shape_moves _ _ _ _ Hshape _ (skel n) rb (le_n _) Hs Hcb).
  apply elem_of_app. right. unfold child_moves.
  apply list_elem_of_omap. exists best. split; [done|].
  by rewrite (lookup_skel _ _ _ Hc).
Qed.

Lemma UCT_returns_legal_move_witness :
  ∃ mv w', UCT 10 0 3%Z (Toy.start [1; 0; 1; 1; 0; 1]%nat) = Ok (mv, w')
    ∧ ∃ m, mv = Some m ∧ m ∈ [e2e4; e7e5].
Proof.
  eexists _, _. split; [vm_compute; reflexivity|].
  eapply (UCT_returns_legal_move (H := Toy.toy_board) 10 0 3
            (Toy.start [1; 0; 1; 1; 0; 1]%nat) _ _ []).
  - reflexivity.
  - vm_compute; reflexivity.
Defined.

(** X15: the tree that [UCT] builds has at most one node under the root
    for each iteration; every node under the root has been visited at least
    once, and its parent is the root or a node of the tree made before it,
    so the parent links lead up to the root. *)
Theorem UCT_tree_size `{BoardApi} `{PyFloat} (fuel rootstate : nat)
    (itermax : Z) (w : World) (mv : option Move) (w' : World) :
  UCT fuel rootstate itermax w = Ok (mv, w') →
  (length (nodes w') ≤ length (nodes w) + 1 + Z.to_nat itermax)%nat
  ∧ ∀ i n, (length (nodes w) < i)%nat → nodes w' !! i = Some n →
      (1 <= visits n)%Z
      ∧ ∃ p m, parentNode n = Some p ∧ (length (nodes w) ≤ p < i)%nat
               ∧ move n = Some m.
Proof.
  intros (rb & _ & (_ & _ & Hlen & _ & cb & Hshape & [_ Hstats]) & _)%UCT_Inv.
  split; [done|]. intros i n Hi Hn. split.
  - destruct (Hstats i (stat n)) as (_ & _ & _ & Hv); [lia| |by apply Hv].
    by rewrite list_lookup_fmap, Hn.
  - destruct (shape_parent _ _ _ _ Hshape i (skel n) Hi (lookup_skel _ _ _ Hn))
      as (p & m & _ & Hp & Hrange & Hm & _).
    by exists p, m.
Qed.

Lemma UCT_tree_size_witness :
  ∃ mv w', UCT 10 0 3%Z (Toy.start [1; 0; 1; 1; 0; 1]%nat) = Ok (mv, w')
    ∧ (length (nodes w') ≤ 0 + 1 + 3)%nat
    ∧ ∀ i n, (0 < i)%nat → nodes w' !! i = Some n →
        (1 <= visits n)%Z
        ∧ ∃ p m, parentNode n = Some p ∧ (0 ≤ p < i)%nat ∧ move n = Some m.
Proof.
  eexists _, _. split; [vm_compute; reflexivity|].
  eapply (UCT_tree_size (H := Toy.toy_board) 10 0 3
            (Toy.start [1; 0; 1; 1; 0; 1]%nat)).
  vm_compute; reflexivity.
Defined.

(** ** The second engine: quantum_selection without untried moves *)

(** X16: on a node without untried moves whose children are in the store
    [quantum_selection] raises [AttributeError]: it calls [grover_search],
    which fails on [sqrt(n).bit_length()]. *)
Theorem quantum_selection_raises `{BoardApi} (node : nat) (w : World) (n : Node) :
  nodes w !! node = Some n → untriedMoves n = [] →
  (∀ c, c ∈ childNodes n → is_Some (nodes w !! c)) →
  Quantum.quantum_selection node w = Err AttributeError.
Proof.
  intros Hn Hnil Hall. unfold Quantum.quantum_selection.
  rewrite (bind_run _ _ _ n w) by by apply get_node_lookup.
  rewrite Hnil. simpl.
  destruct (map_res_total
              (λ c, match nodes w !! c with
                    | Some cn => Ok (move cn)
                    | None => Err BadRef
                    end) (childNodes n)) as (moves & Hmoves & _).
  { intros c [cn Hcn]%Hall. rewrite Hcn. eauto. }
  rewrite (bind_run _ _ _ moves w); [done|].
  unfold Quantum.child_moves, lift. by rewrite Hmoves.
Qed.

Lemma quantum_selection_raises_witness :
  Quantum.quantum_selection 0 toy_tree_world = Err AttributeError.
Proof.
  apply (quantum_selection_raises (H := Toy.toy_board) 0 toy_tree_world
           (mkNode None None [1; 2]%nat (3 # 2)%Q 3%Z [] true)).
  - reflexivity.
  - reflexivity.
  - intros c Hc. simpl in Hc.
    apply elem_of_cons in Hc as [->|Hc]; [by eexists|].
    apply list_elem_of_singleton in Hc as ->. by eexists.
Defined.

(** ** Simulation and the game loop *)

Lemma simulate_ends `{BoardApi} (policy : nat → M Move) (fuel state : nat)
    (w : World) (u : unit) (w' : World) :
  keeps_store policy →
  simulate policy fuel state w = Ok (u, w') →
  nodes w' = nodes w
  ∧ (∀ l, l ≠ state → boards w' !! l = boards w !! l)
  ∧ ∃ b', boards w' !! state = Some b' ∧ is_game_over b' = true.
Proof.
  intros Hkeeps. revert w. induction fuel as [|fuel IH]; intros w;
    rewrite simulate_unfold;
    intros (b & w1 & [Hb ->]%get_board_Ok & Hrest)%bind_Ok;
    (destruct (is_game_over b) eqn:Hover;
     [apply ret_Ok in Hrest as [_ ->]; split; [done|]; split; [done|]; eauto|]).
  - done.
  - apply bind_Ok in Hrest as (m & w1 & Hpol & Hrest).
    destruct (Hkeeps _ _ _ _ Hpol) as [Hns1 Hbs1].
    apply bind_Ok in Hrest as (u1 & w2 & (v & Hv & ->)%board_push_Ok & Hrest).
    apply IH in Hrest as (Hns & Hothers & Hlast). simpl in *.
    split; [congruence|]. split; [|done].
    intros l Hl. rewrite Hothers by done.
    rewrite list_lookup_insert_ne by done. by rewrite Hbs1.
Qed.

(** X17: when the simulation loop of [UCT] returns, the game on the board
    [state] is over; no other board and no node has changed. *)
Theorem simulate_ends_game `{BoardApi} (fuel state : nat) (w : World)
    (u : unit) (w' : World) :
  simulate rollout_policy fuel state w = Ok (u, w') →
  nodes w' = nodes w
  ∧ (∀ l, l ≠ state → boards w' !! l = boards w !! l)
  ∧ ∃ b', boards w' !! state = Some b' ∧ is_game_over b' = true.
Proof. apply simulate_ends, rollout_policy_keeps. Qed.

Lemma simulate_ends_game_witness :
  ∃ u w', simulate rollout_policy 5 0 (Toy.after_e4 [1; 0; 1]%nat) = Ok (u, w')
    ∧ nodes w' = []
    ∧ (∀ l, l ≠ 0%nat → boards w' !! l = boards (Toy.after_e4 [1; 0; 1]%nat) !! l)
    ∧ ∃ b', boards w' !! 0%nat = Some b' ∧ is_game_over b' = true.
Proof.
  eexists _, _. split; [vm_compute; reflexivity|].
  eapply (simulate_ends_game (H := Toy.toy_board) 5 0 (Toy.after_e4 [1; 0; 1]%nat)).
  vm_compute; reflexivity.
Defined.

Lemma play_game_from_unfold `{BoardApi} `{PyFloat} (plies fuel board : nat) :
  play_game_from plies fuel board
  = (b <- get_board board ;;
     if is_game_over b then ret tt
     else
       match plies with
       | O => raise OutOfFuel
       | S plies' =>
           mv <- choose_move fuel board ;;
           match mv with
           | Some m => board_push board m
           | None => raise TypeError
           end ;;
           play_game_from plies' fuel board
       end).
Proof. by destruct plies. Qed.

(** X18: the loop of [play_game] returns only when the game on its board
    is over. *)
Theorem play_game_ends_game `{BoardApi} `{PyFloat} (plies fuel board : nat)
    (w : World) (u : unit) (w' : World) :
  play_game_from plies fuel board w = Ok (u, w') →
  ∃ b, boards w' !! board = Some b ∧ is_game_over b = true.
Proof.
  revert w. induction plies as [|plies IH]; intros w;
    rewrite play_game_from_unfold;
    intros (b & w1 & [Hb ->]%get_board_Ok & Hrest)%bind_Ok;
    (destruct (is_game_over b) eqn:Hover;
     [apply ret_Ok in Hrest as [_ ->]; eauto|]).
  - done.
  - apply bind_Ok in Hrest as (mv & w1 & _ & Hrest).
    apply bind_Ok in Hrest as (u1 & w2 & _ & Hrest). by eapply IH.
Qed.

Lemma play_game_ends_game_witness :
  ∃ u w', play_game_from 3 5 0 (Toy.after_e4_e5 [1; 0; 1]%nat) = Ok (u, w')
    ∧ ∃ b, boards w' !! 0%nat = Some b ∧ is_game_over b = true.
Proof.
  eexists _, _. split; [vm_compute; reflexivity|].
  eapply (play_game_ends_game (H := Toy.toy_board) 3 5 0
           (Toy.after_e4_e5 [1; 0; 1]%nat)).
  vm_compute; reflexivity.
Defined.

(** ** Backpropagation *)

(** The nodes from [id] up to the first node without parent, when the
    parent links reach one within [fuel] steps. *)
Fixpoint ancestors (ns : list Node) (fuel : nat) (id : nat) : option (list nat) :=
  match fuel with
  | O => None
  | S fuel' =>
      match ns !! id with
      | None => None
      | Some n =>
          match parentNode n with
          | None => Some [id]
          | Some p => cons id <$> ancestors ns fuel' p
          end
      end
  end.

Lemma insert_as_alter {A} (f : A → A) (l : list A) i x :
  l !! i = Some x → <[i := f x]> l = alter f i l.
Proof.
  intros Hx. apply list_eq. intros j. destruct (decide (i = j)) as [->|Hne].
  - rewrite list_lookup_insert_eq by by eapply lookup_lt_Some.
    by rewrite list_lookup_alter_eq, Hx.
  - by rewrite list_lookup_insert_ne, list_lookup_alter_ne.
Qed.

Lemma ancestors_alter r j ns fuel id :
  ancestors (alter (Update_node r) j ns) fuel id = ancestors ns fuel id.
Proof.
  revert id. induction fuel as [|fuel IH]; intros id; simpl; [done|].
  destruct (decide (j = id)) as [->|Hne].
  - rewrite list_lookup_alter_eq. destruct (ns !! id) as [n|]; simpl; [|done].
    destruct (parentNode n); [by rewrite IH|done].
  - rewrite list_lookup_alter_ne by done. destruct (ns !! id) as [n|]; [|done].
    destruct (parentNode n); [by rewrite IH|done].
Qed.

(** X19: backpropagation from a node applies [Update], with the result of
    the board [state], once to the node and then once to each of its
    ancestors in turn, up to the node without parent; no other node, no
    board and not [random] is touched. *)
Theorem backpropagate_updates_ancestors `{BoardApi} (fuel id state : nat)
    (w : World) (b : Board) (path : list nat) :
  boards w !! state = Some b →
  ancestors (nodes w) fuel id = Some path →
  backpropagate fuel (Some id) state w
  = Ok (tt, mkWorld
              (foldl (λ ns j, alter (Update_node (result b)) j ns) (nodes w) path)
              (boards w) (rng w)).
Proof.
  intros Hb. revert id w path Hb.
  induction fuel as [|fuel IH]; intros id w path Hb Hpath; simpl in *; [done|].
  destruct (nodes w !! id) as [n|] eqn:Hn; [|done].
  rewrite (bind_run _ _ _ b w) by by apply get_board_Ok.
  set (w1 := mkWorld (<[id := Update_node (result b) n]> (nodes w))
               (boards w) (rng w)).
  assert (Update id (result b) w = Ok (tt, w1)) as Hupd.
  { apply Update_Ok. eauto. }
  rewrite (bind_run _ _ _ _ _ Hupd).
  rewrite (bind_run _ _ _ (Update_node (result b) n) w1).
  2:{ apply get_node_lookup. simpl. apply list_lookup_insert_eq.
      by eapply lookup_lt_Some. }
  change (parentNode (Update_node (result b) n)) with (parentNode n).
  assert (nodes w1 = alter (Update_node (result b)) id (nodes w)) as Hns1.
  { simpl. by apply insert_as_alter. }
  destruct (parentNode n) as [p|].
  - destruct (ancestors (nodes w) fuel p) as [path'|] eqn:Hp; [|done].
    injection Hpath as <-.
    rewrite (IH p w1 path'); [by rewrite Hns1|done|].
    by rewrite Hns1, ancestors_alter.
  - injection Hpath as <-. simpl. rewrite <- Hns1. by destruct fuel.
Qed.

Lemma backpropagate_updates_ancestors_witness :
  backpropagate 3 (Some 1%nat) 0 toy_tree_world
  = Ok (tt, mkWorld
              (foldl (λ ns j, alter (Update_node (result ([] : @Board Toy.toy_board)))
                                j ns)
                 (nodes toy_tree_world) [1; 0]%nat)
              (boards toy_tree_world) (rng toy_tree_world)).
Proof.
  apply (backpropagate_updates_ancestors (H := Toy.toy_board) 3 1 0
           toy_tree_world [] [1; 0]%nat); reflexivity.
Defined.
